(** * Better Spotify (app.py): playlist-to-library synchronisation

    A shallow embedding of the Python script [app.py] and the properties
    its specification states about it.

    Conventions of the embedding.
    - A Python [str] is a list of Unicode code points ([list N]); ASCII
      literals of the source are written [py "..."].
    - A Python exception is a value of [exn]; a call that may raise
      returns a [result].
    - Everything outside the process (environment variables, secrets
      files, the network, the local file system, the B2 bucket, the
      Streamlit page) is a field of the record [World], threaded through
      the effectful functions. *)

From Stdlib Require Import QArith.
From Stdlib Require Import DecimalString.
From stdpp Require Import gmap strings list fin_maps sorting.

Set Default Proof Using "Type".
Local Open Scope N_scope.

(** ** Python strings *)

Abbreviation char := N (only parsing).
Abbreviation str := (list N) (only parsing).
Abbreviation bytes := (list N) (only parsing).

(** An ASCII literal of the source as a list of code points. *)
Fixpoint py (s : string) : str :=
  match s with
  | EmptyString => []
  | String a s' => Ascii.N_of_ascii a :: py s'
  end.

Arguments py : simpl never.

Definition SLASH : char := 47.
Definition QMARK : char := 63.

(** [str.isspace] for one code point (CPython's [_PyUnicode_IsWhitespace]). *)
Definition isspace (c : char) : bool :=
  ((9 <=? c) && (c <=? 13)) || ((28 <=? c) && (c <=? 32))
  || (c =? 133) || (c =? 160) || (c =? 5760)
  || ((8192 <=? c) && (c <=? 8202))
  || (c =? 8232) || (c =? 8233) || (c =? 8239) || (c =? 8287) || (c =? 12288).

Fixpoint lstrip (s : str) : str :=
  match s with
  | [] => []
  | c :: s' => if isspace c then lstrip s' else s
  end.

Definition rstrip (s : str) : str := rev (lstrip (rev s)).

(** [s.strip()] *)
Definition strip (s : str) : str := rstrip (lstrip s).

(** [s.split(sep)] for a one-character separator: never the empty list. *)
Fixpoint split (sep : char) (s : str) : list str :=
  match s with
  | [] => [[]]
  | c :: s' =>
      if c =? sep then [] :: split sep s'
      else match split sep s' with
           | [] => [[c]]
           | p :: ps => (c :: p) :: ps
           end
  end.

(** [sep.join(parts)] *)
Fixpoint join (sep : str) (parts : list str) : str :=
  match parts with
  | [] => []
  | [p] => p
  | p :: ps => p ++ sep ++ join sep ps
  end.

Fixpoint startswith (s pre : str) {struct pre} : bool :=
  match pre, s with
  | [], _ => true
  | _ :: _, [] => false
  | a :: pre', c :: s' => (c =? a) && startswith s' pre'
  end.

(** [s.endswith(suf)] *)
Definition endswith (s suf : str) : bool := startswith (rev s) (rev suf).

(** [sub in s] *)
Fixpoint contains (s sub : str) : bool :=
  startswith s sub ||
  match s with
  | [] => false
  | _ :: s' => contains s' sub
  end.

(** [str(n)] for an [int]. *)
Definition str_of_Z (z : Z) : str :=
  py (NilZero.string_of_int (Z.to_int z)).

(** ** Exceptions and results *)

Inductive exn : Type :=
  | ValueError (msg : str)
  | KeyError (key : str)
  | IndexError
  | TypeError
  | AttributeError
  | JSONDecodeError
  | FileNotFoundError (path : str)
  | HTTPError (status : Z)
  | MissingSchema
  | ConnectionError
  | ClientError (code : str)
  | S3UploadFailedError (code : str).

Inductive result (A : Type) : Type :=
  | Ok (a : A)
  | Raise (e : exn).
Arguments Ok {A} a.
Arguments Raise {A} e.

#[global] Instance result_ret : MRet result := @Ok.
#[global] Instance result_bind : MBind result := fun A B f r =>
  match r with
  | Ok a => f a
  | Raise e => Raise e
  end.

(** ** JSON values, as [response.json()] builds them

    A [dict] is kept as the list of its items; a key occurs once. *)

#[local] Unset Elimination Schemes.
Inductive json : Type :=
  | JNull
  | JBool (b : bool)
  | JNum (q : Q)
  | JStr (s : str)
  | JArr (items : list json)
  | JObj (fields : list (str * json)).
#[local] Set Elimination Schemes.

Fixpoint assoc (key : str) (fields : list (str * json)) : option json :=
  match fields with
  | [] => None
  | (k, v) :: rest => if decide (k = key) then Some v else assoc key rest
  end.

(** [bool(v)] *)
Definition truthy (v : json) : bool :=
  match v with
  | JNull => false
  | JBool b => b
  | JNum q => negb (Qeq_bool q 0)
  | JStr [] => false
  | JStr (_ :: _) => true
  | JArr [] => false
  | JArr (_ :: _) => true
  | JObj [] => false
  | JObj (_ :: _) => true
  end.

(** [d.get(key, default)]: only a [dict] has the method. *)
Definition dict_get (d : json) (key : str) (default : json) : result json :=
  match d with
  | JObj fields =>
      Ok (match assoc key fields with Some v => v | None => default end)
  | _ => Raise AttributeError
  end.

(** [d[key]] with a string key. *)
Definition getitem (d : json) (key : str) : result json :=
  match d with
  | JObj fields =>
      match assoc key fields with
      | Some v => Ok v
      | None => Raise (KeyError key)
      end
  | _ => Raise TypeError
  end.

(** The values [for x in v] goes through. *)
Definition py_iter (v : json) : result (list json) :=
  match v with
  | JArr items => Ok items
  | JStr s => Ok (map (fun c => JStr [c]) s)
  | JObj fields => Ok (map (fun kv => JStr kv.1) fields)
  | _ => Raise TypeError
  end.

Fixpoint all_str (parts : list json) : result (list str) :=
  match parts with
  | [] => Ok []
  | JStr s :: rest => ss ← all_str rest; Ok (s :: ss)
  | _ :: _ => Raise TypeError
  end.

(** [sep.join(parts)] on values: every part has to be a [str]. *)
Definition join_values (sep : str) (parts : list json) : result str :=
  ss ← all_str parts; Ok (join sep ss).

Fixpoint map_result {A B : Type} (f : A -> result B) (l : list A)
  : result (list B) :=
  match l with
  | [] => Ok []
  | a :: rest => b ← f a; bs ← map_result f rest; Ok (b :: bs)
  end.

(** ** What lies outside the source

    The Unicode character database, Python's [str()] on a JSON value
    that is not a string, base64, the yt-dlp downloader, the name
    [tempfile] picks and the order in which the B2 service lists keys. *)

Record FS : Type := {
  files : gmap str bytes;       (* regular files, by path *)
  dirs : gmap str (list str)    (* directories: entry names as [os.listdir] gives them *)
}.

Record postprocessor : Type := {
  pp_key : str;
  preferredcodec : str;
  preferredquality : str
}.

Record ydl_options : Type := {
  format : str;
  quiet : bool;
  no_warnings : bool;
  ignoreerrors : bool;
  nooverwrites : bool;
  no_color : bool;
  postprocessors : list postprocessor;
  outtmpl : str
}.

Class Platform : Type := {
  unicode_isalnum : char -> bool;
  py_repr : json -> str;
  b64encode : str -> str;
  ydl_download : ydl_options -> list str -> FS -> FS;
  mkdtemp : FS -> str;
  backend_order : gmap str bytes -> list str
}.

(** ** The world *)

Record response : Type := {
  status_code : Z;
  body : option json            (* [None]: the body is not JSON *)
}.

Inductive http_outcome : Type :=
  | Responds (r : response)
  | Fails (e : exn).

Inductive http_method : Type := GET | POST.

Record request : Type := {
  method : http_method;
  url : str;
  authorization : str
}.

Inductive ui_event : Type :=
  | error_missing_url           (* st.error("Introduce la URL de la playlist") *)
  | error_missing_folder        (* st.error("Introduce un nombre para la carpeta") *)
  | error_invalid_url           (* st.error("URL no valida. ...") *)
  | error_exception (e : exn)   (* st.error(f"Error: {str(e)}") *)
  | error_denied                (* st.error("Acceso denegado") *)
  | error_wrong_code            (* st.error("Codigo incorrecto") *)
  | spinner_spotify             (* st.spinner("Obteniendo canciones de Spotify...") *)
  | success_found (n : nat)     (* st.success(f"{len(canciones)} canciones encontradas") *)
  | status_empty                (* status = st.empty() and status.empty() *)
  | status_text (i n : nat) (song : str)
                                (* status.text(f"({i+1}/{len(canciones)}) {song}") *)
  | progress (value : Q)        (* st.progress(0) and progress_bar.progress(...) *)
  | success_done (safe_name : str)
  | balloons.

Record World : Type := {
  environ : gmap str str;                 (* os.environ *)
  st_secrets : option (gmap str str);     (* .streamlit/secrets.toml, if there is one *)
  secrets_parsed : bool;                  (* Streamlit has parsed that file *)
  etc_secrets : option (gmap str str);    (* /etc/secrets/secrets.toml, if toml loads it *)
  network : list http_outcome;            (* what the next requests will meet *)
  sent : list request;                    (* the requests made so far *)
  fs : FS;
  ydl_calls : list (ydl_options * list str);
  bucket_name : str;                      (* the name of the bucket of the B2 service *)
  bucket : gmap str bytes;                (* the objects of that bucket *)
  boto3_faults : list (option exn);       (* what the next calls into boto3 raise,
                                             if anything; past the end none raises *)
  screen : list ui_event;                 (* what the page has shown so far *)
  authenticated : bool                    (* st.session_state.authenticated *)
}.

Definition set_network (net : list http_outcome) (w : World) : World :=
  {| environ := environ w; st_secrets := st_secrets w;
     secrets_parsed := secrets_parsed w; etc_secrets := etc_secrets w;
     network := net; sent := sent w; fs := fs w; ydl_calls := ydl_calls w;
     bucket_name := bucket_name w; bucket := bucket w;
     boto3_faults := boto3_faults w; screen := screen w;
     authenticated := authenticated w |}.

Definition log_request (rq : request) (w : World) : World :=
  {| environ := environ w; st_secrets := st_secrets w;
     secrets_parsed := secrets_parsed w; etc_secrets := etc_secrets w;
     network := network w; sent := sent w ++ [rq]; fs := fs w;
     ydl_calls := ydl_calls w; bucket_name := bucket_name w;
     bucket := bucket w; boto3_faults := boto3_faults w; screen := screen w;
     authenticated := authenticated w |}.

Definition set_fs (f : FS) (w : World) : World :=
  {| environ := environ w; st_secrets := st_secrets w;
     secrets_parsed := secrets_parsed w; etc_secrets := etc_secrets w;
     network := network w; sent := sent w; fs := f; ydl_calls := ydl_calls w;
     bucket_name := bucket_name w; bucket := bucket w;
     boto3_faults := boto3_faults w; screen := screen w;
     authenticated := authenticated w |}.

Definition log_ydl (call : ydl_options * list str) (w : World) : World :=
  {| environ := environ w; st_secrets := st_secrets w;
     secrets_parsed := secrets_parsed w; etc_secrets := etc_secrets w;
     network := network w; sent := sent w; fs := fs w;
     ydl_calls := ydl_calls w ++ [call]; bucket_name := bucket_name w;
     bucket := bucket w; boto3_faults := boto3_faults w; screen := screen w;
     authenticated := authenticated w |}.

Definition set_bucket (b : gmap str bytes) (w : World) : World :=
  {| environ := environ w; st_secrets := st_secrets w;
     secrets_parsed := secrets_parsed w; etc_secrets := etc_secrets w;
     network := network w; sent := sent w; fs := fs w;
     ydl_calls := ydl_calls w; bucket_name := bucket_name w; bucket := b;
     boto3_faults := boto3_faults w; screen := screen w;
     authenticated := authenticated w |}.

Definition show (ev : ui_event) (w : World) : World :=
  {| environ := environ w; st_secrets := st_secrets w;
     secrets_parsed := secrets_parsed w; etc_secrets := etc_secrets w;
     network := network w; sent := sent w; fs := fs w;
     ydl_calls := ydl_calls w; bucket_name := bucket_name w;
     bucket := bucket w; boto3_faults := boto3_faults w;
     screen := screen w ++ [ev]; authenticated := authenticated w |}.

Definition set_authenticated (b : bool) (w : World) : World :=
  {| environ := environ w; st_secrets := st_secrets w;
     secrets_parsed := secrets_parsed w; etc_secrets := etc_secrets w;
     network := network w; sent := sent w; fs := fs w;
     ydl_calls := ydl_calls w; bucket_name := bucket_name w;
     bucket := bucket w; boto3_faults := boto3_faults w; screen := screen w;
     authenticated := b |}.

Definition set_environ (env : gmap str str) (w : World) : World :=
  {| environ := env; st_secrets := st_secrets w;
     secrets_parsed := secrets_parsed w; etc_secrets := etc_secrets w;
     network := network w; sent := sent w; fs := fs w;
     ydl_calls := ydl_calls w; bucket_name := bucket_name w;
     bucket := bucket w; boto3_faults := boto3_faults w; screen := screen w;
     authenticated := authenticated w |}.

Definition set_st_secrets (secrets : option (gmap str str)) (w : World) : World :=
  {| environ := environ w; st_secrets := secrets;
     secrets_parsed := secrets_parsed w; etc_secrets := etc_secrets w;
     network := network w; sent := sent w; fs := fs w;
     ydl_calls := ydl_calls w; bucket_name := bucket_name w;
     bucket := bucket w; boto3_faults := boto3_faults w; screen := screen w;
     authenticated := authenticated w |}.

Definition set_secrets_parsed (b : bool) (w : World) : World :=
  {| environ := environ w; st_secrets := st_secrets w; secrets_parsed := b;
     etc_secrets := etc_secrets w; network := network w; sent := sent w;
     fs := fs w; ydl_calls := ydl_calls w; bucket_name := bucket_name w;
     bucket := bucket w; boto3_faults := boto3_faults w; screen := screen w;
     authenticated := authenticated w |}.

Definition set_boto3_faults (faults : list (option exn)) (w : World) : World :=
  {| environ := environ w; st_secrets := st_secrets w;
     secrets_parsed := secrets_parsed w; etc_secrets := etc_secrets w;
     network := network w; sent := sent w; fs := fs w;
     ydl_calls := ydl_calls w; bucket_name := bucket_name w;
     bucket := bucket w; boto3_faults := faults; screen := screen w;
     authenticated := authenticated w |}.

(** An effectful call: a result, or an exception, and the world after it. *)
Definition io (A : Type) : Type := World -> result A * World.

Definition io_ret {A : Type} (a : A) : io A := fun w => (Ok a, w).
Definition io_raise {A : Type} (e : exn) : io A := fun w => (Raise e, w).
Definition io_bind {A B : Type} (m : io A) (k : A -> io B) : io B :=
  fun w =>
    match m w with
    | (Ok a, w') => k a w'
    | (Raise e, w') => (Raise e, w')
    end.
Definition lift {A : Type} (r : result A) : io A := fun w => (r, w).
Definition effect (f : World -> World) : io unit := fun w => (Ok tt, f w).
Definition ask {A : Type} (f : World -> A) : io A := fun w => (Ok (f w), w).

Declare Scope io_scope.
Delimit Scope io_scope with io.
Notation "x <- m ;; k" := (io_bind m (fun x => k))
  (at level 100, m at next level, right associativity) : io_scope.
Notation "m ;;; k" := (io_bind m (fun _ => k))
  (at level 100, right associativity) : io_scope.

(** ** Secrets (lines 13-42) *)

(** What the first read of [st.secrets] does when the file is there:
    Streamlit parses the file once and copies every top-level value into
    [os.environ], over the value a variable had. *)
Definition load_secrets (w : World) : World :=
  match st_secrets w with
  | Some secrets =>
      if secrets_parsed w then w
      else set_secrets_parsed true (set_environ (secrets ∪ environ w) w)
  | None => w
  end.

(** [st.secrets[key]]: [FileNotFoundError] without a secrets file,
    [KeyError] when the file has no such key. *)
Definition st_secrets_getitem (key : str) : io str :=
  fun w =>
    match st_secrets w with
    | None => (Raise (FileNotFoundError (py ".streamlit/secrets.toml")), w)
    | Some secrets =>
        (match secrets !! key with
         | Some v => Ok v
         | None => Raise (KeyError key)
         end, load_secrets w)
    end.

(** The third source: the whole block sits in [try: ... except: pass]. *)
Definition etc_secrets_lookup (key : str) (w : World) : option str :=
  match etc_secrets w with
  | Some secrets_data => secrets_data !! key
  | None => None
  end.

Definition get_secret (key : str) (default : option str) : io (option str) :=
  fun w =>
    let env_value := environ w !! key in
    match env_value with
    | Some (c :: v) => (Ok (Some (c :: v)), w)       (* if env_value: *)
    | _ =>
        match st_secrets_getitem key w with
        | (Ok v, w') => (Ok (Some v), w')
        | (Raise (KeyError _), w') | (Raise (FileNotFoundError _), w') =>
            match etc_secrets_lookup key w' with
            | Some v => (Ok (Some v), w')
            | None => (Ok default, w')
            end
        | (Raise e, w') => (Raise e, w')
        end
    end.

(** ** The access gate (lines 56-84) *)

Record visit : Type := {
  query_code : option str;      (* st.query_params.get("code", None) *)
  form_submitted : bool;        (* the login form's button *)
  code_input : str              (* the login form's text input *)
}.

Inductive gate : Type :=
  | Proceed                     (* check_access returns: the page is drawn *)
  | Rerun                       (* st.rerun() *)
  | Stop.                       (* st.stop() *)

Definition ACCESS_CODE_DEFAULT : str := py "mi_codigo_secreto_123".

Definition check_access (v : visit) : io gate := (
  SECRET_CODE <- get_secret (py "ACCESS_CODE") (Some ACCESS_CODE_DEFAULT) ;;
  already <- ask authenticated ;;
  if (already : bool) then io_ret Proceed
  else
    let access_code := query_code v in
    if decide (access_code = SECRET_CODE) then
      effect (set_authenticated true) ;;; io_ret Rerun
    else
      effect (show error_denied) ;;;
      if form_submitted v then
        if decide (Some (code_input v) = SECRET_CODE) then
          effect (set_authenticated true) ;;; io_ret Rerun
        else
          effect (show error_wrong_code) ;;; io_ret Stop
      else io_ret Stop)%io.

(** ** Backblaze B2 (lines 92-147) *)

Record b2_client : Type := {
  endpoint_url : option str;
  aws_access_key_id : option str;
  aws_secret_access_key : option str
}.

(** A call into boto3 raises what its next fault says, if anything. *)
Definition boto3_call : io unit :=
  fun w =>
    match boto3_faults w with
    | [] => (Ok tt, w)
    | fault :: rest =>
        (match fault with
         | Some e => Raise e
         | None => Ok tt
         end, set_boto3_faults rest w)
    end.

(** [boto3.client('s3', endpoint_url=..., aws_access_key_id=...,
    aws_secret_access_key=...)] *)
Definition boto3_client (endpoint_url key_id app_key : option str) : io b2_client := (
  boto3_call ;;;
  io_ret {| endpoint_url := endpoint_url;
            aws_access_key_id := key_id;
            aws_secret_access_key := app_key |})%io.

Definition get_b2_client : io b2_client := (
  endpoint_url <- get_secret (py "B2_ENDPOINT") None ;;
  key_id <- get_secret (py "B2_KEY_ID") None ;;
  app_key <- get_secret (py "B2_APP_KEY") None ;;
  boto3_client endpoint_url key_id app_key)%io.

(** A request of the client about the bucket [name]: the service knows
    one bucket. *)
Definition send (b2 : b2_client) (name : str) : io unit := (
  boto3_call ;;;
  known <- ask (fun w => bool_decide (name = bucket_name w)) ;;
  if (known : bool) then io_ret tt
  else io_raise (ClientError (py "NoSuchBucket")))%io.

(** A request with [Bucket=bucket]: botocore matches the name against a
    pattern first, which raises [TypeError] on [None]. *)
Definition b2_request (b2 : b2_client) (Bucket : option str) : io unit :=
  match Bucket with
  | None => io_raise TypeError
  | Some name => send b2 name
  end.

(** [ListObjectsV2] answers with at most this many keys. *)
Definition MaxKeys : nat := 1000.

Record s3_object : Type := { Key : str }.

Record list_objects_output : Type := {
  Contents : option (list s3_object);   (* no such entry when no key matches *)
  IsTruncated : bool
}.

Record song : Type := { song_key : str; song_name : str }.

(** [os.path.basename]: what follows the last slash. *)
Fixpoint basename (p : str) : str :=
  match p with
  | [] => []
  | c :: p' =>
      if (c =? SLASH) || existsb (N.eqb SLASH) p' then basename p' else p
  end.

(** [os.path.join(a, b)] *)
Definition os_path_join (a b : str) : str :=
  if startswith b [SLASH] then b
  else if (match a with [] => true | _ => false end) || endswith a [SLASH]
       then a ++ b
       else a ++ [SLASH] ++ b.

Section Program.
Context `{Platform}.

(** One page of the keys that start with [prefix], in the order of the
    service. *)
Definition list_objects_page (prefix : str) (w : World) : list_objects_output :=
  let matching :=
    List.filter (fun k => startswith k prefix) (backend_order (bucket w)) in
  let page := take MaxKeys matching in
  {| Contents := match page with
                 | [] => None
                 | _ :: _ => Some (map Build_s3_object page)
                 end;
     IsTruncated := (MaxKeys <? length matching)%nat |}.

(** [b2.list_objects_v2(Bucket=bucket, Prefix=prefix)] *)
Definition list_objects_v2 (b2 : b2_client) (Bucket : option str) (Prefix : str)
  : io list_objects_output := (
  b2_request b2 Bucket ;;;
  ask (list_objects_page Prefix))%io.

Fixpoint songs_of (contents : list s3_object) (songs : list song)
  : result (list song) :=
  match contents with
  | [] => Ok songs
  | obj :: rest =>
      let key := Key obj in
      if endswith key (py ".mp3") then
        match last (split SLASH key) with      (* key.split('/')[-1] *)
        | Some song_name =>
            songs_of rest (songs ++ [ {| song_key := key; song_name := song_name |} ])
        | None => Raise IndexError
        end
      else songs_of rest songs
  end.

Definition list_songs_in_playlist (playlist_name : str) : io (list song) := (
  b2 <- get_b2_client ;;
  bucket <- get_secret (py "B2_BUCKET") None ;;
  response <- list_objects_v2 b2 bucket (playlist_name ++ py "/") ;;
  let contents := match Contents response with
                  | Some l => l
                  | None => []
                  end in
  lift (songs_of contents []))%io.

(** What [upload_file] raises for an error of the service. *)
Definition upload_failed (e : exn) : exn :=
  match e with
  | ClientError code => S3UploadFailedError code
  | other => other
  end.

(** [b2.upload_file(file_path, bucket, key)]: the object [key] becomes the
    bytes of the local file. The bucket name is matched against a pattern
    and the file is opened before anything is sent. *)
Definition upload_file (b2 : b2_client) (Filename : str) (Bucket : option str)
  (Key : str) : io unit :=
  match Bucket with
  | None => io_raise TypeError
  | Some name =>
      fun w =>
        match files (fs w) !! Filename with
        | None => (Raise (FileNotFoundError Filename), w)
        | Some data =>
            match send b2 name w with
            | (Ok _, w') => (Ok tt, set_bucket (<[Key := data]> (bucket w')) w')
            | (Raise e, w') => (Raise (upload_failed e), w')
            end
        end
  end.

Definition upload_song_to_b2 (file_path playlist_name : str) : io str := (
  b2 <- get_b2_client ;;
  bucket <- get_secret (py "B2_BUCKET") None ;;
  let filename := basename file_path in
  let key := playlist_name ++ py "/" ++ filename in
  upload_file b2 file_path bucket key ;;;
  io_ret key)%io.

(** ** Spotify (lines 152-204) *)

(** An f-string field: [str(v)]. *)
Definition format_value (v : json) : str :=
  match v with
  | JStr s => s
  | other => py_repr other
  end.

Definition format_secret (v : option str) : str :=
  match v with
  | Some s => s
  | None => py "None"
  end.

(** Sending a request: it is logged and meets the next outcome of the
    network; past the last one the network is down. *)
Definition http_request (rq : request) : io response :=
  fun w =>
    let w' := log_request rq w in
    match network w with
    | [] => (Raise ConnectionError, w')
    | Responds r :: net => (Ok r, set_network net w')
    | Fails e :: net => (Raise e, set_network net w')
    end.

Definition requests_post (url authorization : str) : io response :=
  http_request {| method := POST; url := url; authorization := authorization |}.

(** [requests.get(url, headers=headers)]: a [url] that is not a string has
    no scheme; a string is sent as it stands (the URLs the source builds
    are absolute). *)
Definition requests_get (url : json) (authorization : str) : io response :=
  match url with
  | JStr u =>
      http_request {| method := GET; url := u; authorization := authorization |}
  | _ => io_raise MissingSchema
  end.

Definition raise_for_status (r : response) : result unit :=
  if ((400 <=? status_code r) && (status_code r <? 600))%Z
  then Raise (HTTPError (status_code r))
  else Ok tt.

Definition response_json (r : response) : result json :=
  match body r with
  | Some j => Ok j
  | None => Raise JSONDecodeError
  end.

Definition get_spotify_access_token : io json := (
  client_id <- get_secret (py "SPOTIFY_CLIENT_ID") None ;;
  client_secret <- get_secret (py "SPOTIFY_CLIENT_SECRET") None ;;
  let credentials := format_secret client_id ++ py ":" ++ format_secret client_secret in
  let encoded_credentials := b64encode credentials in
  response <- requests_post (py "https://accounts.spotify.com/api/token")
                            (py "Basic " ++ encoded_credentials) ;;
  lift (raise_for_status response) ;;;
  data <- lift (response_json response) ;;
  lift (getitem data (py "access_token")))%io.

Fixpoint first_of_length_22 (parts : list str) : result str :=
  match parts with
  | [] => Raise (ValueError (py "No se pudo extraer el ID de la playlist"))
  | part :: rest =>
      if (length part =? 22)%nat then Ok part else first_of_length_22 rest
  end.

Definition extract_playlist_id (playlist_url : str) : result str :=
  match split QMARK (strip playlist_url) with    (* .strip().split('?')[0] *)
  | [] => Raise IndexError
  | playlist_url :: _ =>
      let parts := split SLASH playlist_url in
      first_of_length_22 parts
  end.

(** The body of [for item in data.get('items', [])]. *)
Definition add_item (item : json) (all_tracks : list str) : result (list str) :=
  track ← dict_get item (py "track") (JObj []);
  if truthy track then
    name ← dict_get track (py "name") (JStr []);
    artist_objects ← dict_get track (py "artists") (JArr []) ≫= py_iter;
    artists ← map_result (fun a => dict_get a (py "name") (JStr [])) artist_objects;
    if truthy name && truthy (JArr artists) then
      joined ← join_values (py ", ") artists;
      Ok (all_tracks ++ [format_value name ++ py " - " ++ joined])
    else Ok all_tracks
  else Ok all_tracks.

Fixpoint add_items (items : list json) (all_tracks : list str)
  : result (list str) :=
  match items with
  | [] => Ok all_tracks
  | item :: rest => all_tracks' ← add_item item all_tracks; add_items rest all_tracks'
  end.

(** One turn of [while url:]: the tracks so far and the next [url]. *)
Definition fetch_page (url : json) (authorization : str) (all_tracks : list str)
  : io (list str * json) := (
  response <- requests_get url authorization ;;
  lift (raise_for_status response) ;;;
  data <- lift (response_json response) ;;
  items <- lift (dict_get data (py "items") (JArr []) ≫= py_iter) ;;
  all_tracks' <- lift (add_items items all_tracks) ;;
  next <- lift (dict_get data (py "next") JNull) ;;
  io_ret (all_tracks', next))%io.

(** [while url:]. Every turn that goes round takes one outcome off the
    network, so [fuel] at least the length of [network] never runs out
    (lemma [while_url_fuel] below). *)
Fixpoint while_url (fuel : nat) (url : json) (authorization : str)
  (all_tracks : list str) : io (list str) :=
  fun w =>
    if truthy url then
      match fetch_page url authorization all_tracks w with
      | (Raise e, w') => (Raise e, w')
      | (Ok (all_tracks', next), w') =>
          match fuel with
          | O => (Raise ConnectionError, w')
          | S fuel' => while_url fuel' next authorization all_tracks' w'
          end
      end
    else (Ok all_tracks, w).

Definition get_playlist_tracks (playlist_url : str) : io (list str) := (
  access_token <- get_spotify_access_token ;;
  playlist_id <- lift (extract_playlist_id playlist_url) ;;
  let authorization := py "Bearer " ++ format_value access_token in
  let url := py "https://api.spotify.com/v1/playlists/" ++ playlist_id ++ py "/tracks" in
  let all_tracks := [] in
  fun w => while_url (length (network w)) (JStr url) authorization all_tracks w)%io.

(** ** The downloader (lines 209-234) *)

Definition ydl_opts (output_path : str) (quality : Z) : ydl_options :=
  {| format := py "bestaudio/best";
     quiet := true;
     no_warnings := true;
     ignoreerrors := true;
     nooverwrites := true;
     no_color := true;
     postprocessors :=
       [ {| pp_key := py "FFmpegExtractAudio";
            preferredcodec := py "mp3";
            preferredquality := str_of_Z quality |} ];
     outtmpl := os_path_join output_path (py "%(title)s.%(ext)s") |}.

(** [ydl.download(queries)] under [ignoreerrors]: the call is logged and
    leaves the file system as the downloader leaves it. *)
Definition download (opts : ydl_options) (queries : list str) : io unit :=
  effect (fun w =>
    set_fs (ydl_download opts queries (fs w)) (log_ydl (opts, queries) w)).

Definition os_listdir (path : str) : io (list str) :=
  fun w =>
    match dirs (fs w) !! path with
    | Some names => (Ok names, w)
    | None => (Raise (FileNotFoundError path), w)
    end.

(** [os.path.exists], asked of the path of a regular file. *)
Definition os_path_exists (path : str) (w : World) : bool :=
  bool_decide (is_Some (files (fs w) !! path)).

(** [for f in os.listdir(output_path)] up to its [return]. *)
Fixpoint first_mp3 (output_path : str) (names : list str) : option str :=
  match names with
  | [] => None
  | f :: rest =>
      if endswith f (py ".mp3") then Some (os_path_join output_path f)
      else first_mp3 output_path rest
  end.

Definition download_song (song_name output_path : str) (quality : Z)
  : io (option str) := (
  let search_query := py "ytsearch1:" ++ song_name in
  download (ydl_opts output_path quality) [search_query] ;;;
  names <- os_listdir output_path ;;
  io_ret (first_mp3 output_path names))%io.

(** ** The download tab (lines 367-402) *)

(** [with tempfile.TemporaryDirectory() as tmp_dir]: the directory is
    made, and removed with what it holds however the block ends. *)
Definition make_dir (path : str) (f : FS) : FS :=
  {| files := files f; dirs := <[path := []]> (dirs f) |}.

Definition rmtree (path : str) (f : FS) : FS :=
  {| files := filter (fun kv => ¬ startswith kv.1 (path ++ py "/")) (files f);
     dirs := delete path (dirs f) |}.

Definition TemporaryDirectory {A : Type} (block : str -> io A) : io A :=
  fun w =>
    let tmp_dir := mkdtemp (fs w) in
    let '(r, w') := block tmp_dir (set_fs (make_dir tmp_dir (fs w)) w) in
    (r, set_fs (rmtree tmp_dir (fs w')) w').

Definition ascii_isalnum (c : char) : bool :=
  ((48 <=? c) && (c <=? 57)) || ((65 <=? c) && (c <=? 90))
  || ((97 <=? c) && (c <=? 122)).

(** [c.isalnum()] *)
Definition isalnum (c : char) : bool :=
  if c <? 128 then ascii_isalnum c else unicode_isalnum c.

(** [c.isalnum() or c in ' -_'] *)
Definition keeps (c : char) : bool :=
  isalnum c || contains (py " -_") [c].

(** ["".join(c for c in folder_name if ...).strip()] *)
Definition safe_name_of (folder_name : str) : str :=
  strip (List.filter keeps folder_name).

(** [(i + 1) / len(canciones)] *)
Definition fraction (i n : nat) : Q :=
  Z.of_nat (i + 1) # Pos.of_nat n.

(** The body of [for i, song in enumerate(canciones)]. *)
Definition download_one (safe_name : str) (quality : Z) (n i : nat) (song : str)
  : io unit := (
  effect (show (status_text (i + 1) n song)) ;;;
  TemporaryDirectory (fun tmp_dir =>
    downloaded <- download_song song tmp_dir quality ;;
    match downloaded with                (* if downloaded and os.path.exists(downloaded): *)
    | Some (c :: p) =>
        let path := c :: p in
        path_exists <- ask (os_path_exists path) ;;
        if (path_exists : bool)
        then upload_song_to_b2 path safe_name ;;; io_ret tt
        else io_ret tt
    | Some [] | None => io_ret tt
    end) ;;;
  effect (show (progress (fraction i n))))%io.

Fixpoint download_all (safe_name : str) (quality : Z) (n i : nat)
  (canciones : list str) : io unit :=
  match canciones with
  | [] => io_ret tt
  | song :: rest =>
      (download_one safe_name quality n i song ;;;
       download_all safe_name quality n (S i) rest)%io
  end.

(** The [try] block of the handler. *)
Definition sync (playlist_url folder_name : str) (quality : Z) : io unit := (
  let safe_name := safe_name_of folder_name in
  effect (show spinner_spotify) ;;;
  canciones <- get_playlist_tracks playlist_url ;;
  effect (show (success_found (length canciones))) ;;;
  effect (show (progress 0)) ;;;
  effect (show status_empty) ;;;
  download_all safe_name quality (length canciones) 0 canciones ;;;
  effect (show status_empty) ;;;
  effect (show (success_done safe_name)) ;;;
  effect (show balloons))%io.

(** [if st.button(...)]: what a click on the download button does. *)
Definition on_download (playlist_url folder_name : str) (quality : Z)
  (w : World) : World :=
  match playlist_url with
  | [] => show error_missing_url w
  | _ :: _ =>
      match strip folder_name with
      | [] => show error_missing_folder w
      | _ :: _ =>
          if negb (contains playlist_url (py "spotify.com/playlist"))
          then show error_invalid_url w
          else
            match sync playlist_url folder_name quality w with
            | (Ok _, w') => w'
            | (Raise e, w') => show (error_exception e) w'     (* except Exception as e *)
            end
      end
  end.

End Program.


(** ** The library tab (lines 101-113, 131-137, 444) *)

(** [s.rstrip('/')]: every trailing slash goes. *)
Fixpoint lstrip_char (c : char) (s : str) : str :=
  match s with
  | [] => []
  | x :: s' => if x =? c then lstrip_char c s' else s
  end.

Definition rstrip_char (c : char) (s : str) : str :=
  rev (lstrip_char c (rev s)).

(** The common prefix of a key under the delimiter '/': the key up to
    its first slash, the slash included. *)
Fixpoint through_slash (key : str) : option str :=
  match key with
  | [] => None
  | c :: key' =>
      if c =? SLASH then Some [SLASH] else cons c <$> through_slash key'
  end.

Record common_prefix : Type := { Prefix : str }.

Record list_prefixes_output : Type := {
  CommonPrefixes : option (list common_prefix)   (* no such entry without a prefix *)
}.

(** [s.replace(old, new)]: the occurrences of [old] from left to right,
    none overlapping another. [skip] characters of a match are still to
    be passed over. *)
Fixpoint replace_from (old new : str) (skip : nat) (s : str) : str :=
  match s with
  | [] => []
  | c :: s' =>
      match skip with
      | S skip' => replace_from old new skip' s'
      | O =>
          if startswith s old
          then new ++ replace_from old new (length old - 1) s'
          else c :: replace_from old new 0 s'
      end
  end.

Definition replace (old new s : str) : str :=
  match old with
  | [] => new ++ flat_map (fun c => c :: new) s
  | _ :: _ => replace_from old new 0 s
  end.

(** [[s['name'].replace('.mp3', '') for s in songs]] *)
Definition song_names (songs : list song) : list str :=
  map (fun s => replace (py ".mp3") [] (song_name s)) songs.

Section Library.
Context `{Platform}.

(** One page of the listing with the delimiter '/', where the keys with
    a slash are rolled up into their common prefixes and a prefix counts
    once. *)
Definition list_prefixes_page (w : World) : list_prefixes_output :=
  let rolled_up :=
    remove_dups
      (map (fun key => match through_slash key with
                       | Some p => inr p
                       | None => inl key
                       end) (backend_order (bucket w))) in
  let page := take MaxKeys rolled_up in
  let prefixes := omap (fun e : str + str => match e with
                                             | inr p => Some p
                                             | inl _ => None
                                             end) page in
  {| CommonPrefixes := match prefixes with
                       | [] => None
                       | _ :: _ => Some (map Build_common_prefix prefixes)
                       end |}.

(** [b2.list_objects_v2(Bucket=bucket, Delimiter='/')] *)
Definition list_objects_v2_delimited (b2 : b2_client) (Bucket : option str)
  : io list_prefixes_output := (
  b2_request b2 Bucket ;;;
  ask list_prefixes_page)%io.

Definition list_playlists : io (list str) := (
  b2 <- get_b2_client ;;
  bucket <- get_secret (py "B2_BUCKET") None ;;
  response <- list_objects_v2_delimited b2 bucket ;;
  let prefixes := match CommonPrefixes response with
                  | Some l => l
                  | None => []
                  end in
  io_ret (map (fun prefix => rstrip_char SLASH (Prefix prefix)) prefixes))%io.

(** [b2.get_object(Bucket=bucket, Key=key)]: the bytes of the object, and
    botocore's [ClientError] when there is none. *)
Definition get_object (b2 : b2_client) (Bucket : option str) (Key : str)
  : io bytes := (
  b2_request b2 Bucket ;;;
  fun w =>
    match bucket w !! Key with
    | Some data => (Ok data, w)
    | None => (Raise (ClientError (py "NoSuchKey")), w)
    end)%io.

(** [response['Body'].read()] is the value of [get_object] here. *)
Definition get_song_data (key : str) : io bytes := (
  b2 <- get_b2_client ;;
  bucket <- get_secret (py "B2_BUCKET") None ;;
  get_object b2 bucket key)%io.

End Library.

(** ** The vocabulary of the properties *)

(** A segment of a URL holds neither a slash nor a question mark. *)
Definition segment (seg : str) : Prop := (SLASH ∉ seg) /\ (QMARK ∉ seg).

#[local] Instance segment_dec (seg : str) : Decision (segment seg).
Proof. unfold segment. apply _. Defined.

(** A query string is nothing, or a question mark and what follows it. *)
Definition query_string (q : str) : Prop := q = [] \/ exists q', q = QMARK :: q'.

(** A file name with the extension ".mp3". *)
Definition is_mp3 (f : str) : Prop := exists stem, f = stem ++ py ".mp3".

(** ** Track resolution in the words of the specification *)

(** "Track: { title: string, artists: ordered sequence of string };
    rendered as "title - artist1, artist2"." *)
Record Track : Type := { title : str; artists : list str }.

Definition rendered (t : Track) : str :=
  title t ++ py " - " ++ join (py ", ") (artists t).

(** An entry of a page: a track, or none (the item has no track). *)
Record Page : Type := {
  entries : list (option Track);
  next : option str             (* the server's "next page" pointer *)
}.

(** "A non-empty name and a non-empty artist list". *)
Definition kept (t : Track) : bool :=
  match title t, artists t with
  | _ :: _, _ :: _ => true
  | _, _ => false
  end.

(** What resolution is to return: over all pages, in the order of the
    API, the kept entries, rendered. *)
Definition resolved (pages : list Page) : list str :=
  map rendered (List.filter kept (omap id (flat_map entries pages))).

(** The JSON of the tracks endpoint,
    [{items: [{track: {name, artists: [{name}]}}], next: url | null}],
    where an absent key stands for the empty value. *)
Definition has_str (fields : list (str * json)) (key : string) (s : str) : Prop :=
  assoc (py key) fields = Some (JStr s) \/ (assoc (py key) fields = None /\ s = []).

Definition artist_json (a : json) (name : str) : Prop :=
  exists fields, a = JObj fields /\ has_str fields "name" name.

Definition track_json (j : json) (t : Track) : Prop :=
  exists fields,
    j = JObj fields
    /\ has_str fields "name" (title t)
    /\ ((exists l, assoc (py "artists") fields = Some (JArr l)
                   /\ Forall2 artist_json l (artists t))
        \/ (assoc (py "artists") fields = None /\ artists t = [])).

Definition item_json (j : json) (e : option Track) : Prop :=
  exists fields,
    j = JObj fields
    /\ match e with
       | Some t => exists tj, assoc (py "track") fields = Some tj /\ track_json tj t
       | None => assoc (py "track") fields = None
                 \/ assoc (py "track") fields = Some JNull
       end.

Definition page_json (j : json) (p : Page) : Prop :=
  exists fields,
    j = JObj fields
    /\ ((exists items, assoc (py "items") fields = Some (JArr items)
                       /\ Forall2 item_json items (entries p))
        \/ (assoc (py "items") fields = None /\ entries p = []))
    /\ match next p with
       | Some u => u <> [] /\ assoc (py "next") fields = Some (JStr u)
       | None => assoc (py "next") fields = None
                 \/ assoc (py "next") fields = Some JNull
       end.

Definition entry_tracks (e : option Track) : list str :=
  match e with
  | Some t => if kept t then [rendered t] else []
  | None => []
  end.

(** A request fails when its status is a client or server error (what
    [raise_for_status] raises on). *)
Definition failed (r : response) : Prop :=
  (400 <= status_code r < 600)%Z.

Definition page_response (r : response) (p : Page) : Prop :=
  ~ failed r /\ exists j, body r = Some j /\ page_json j p.

Definition token_response (r : response) (access_token : json) : Prop :=
  ~ failed r
  /\ exists fields, body r = Some (JObj fields)
                    /\ assoc (py "access_token") fields = Some access_token.

(** The pages of one resolution: every page but the last points to a next. *)
Fixpoint pagination (pages : list Page) : Prop :=
  match pages with
  | [] => False
  | [p] => next p = None
  | p :: rest => is_Some (next p) /\ pagination rest
  end.

(** The URLs asked for, from [u] on. *)
Fixpoint urls_from (u : str) (pages : list Page) : list str :=
  match pages with
  | [] => []
  | p :: rest => u :: urls_from (default u (next p)) rest
  end.

(** The JSON value of the "next" pointer of a page. *)
Definition next_url (p : Page) : json :=
  match next p with
  | Some u => JStr u
  | None => JNull
  end.

(** The URL the loop holds after the pages, from [u] on. *)
Definition url_after (u : str) (pages : list Page) : str :=
  foldl (fun u p => default u (next p)) u pages.

(** The world after the requests [rqs], with [net] left of the network. *)
Definition requested (rqs : list request) (net : list http_outcome) (w : World)
  : World :=
  {| environ := environ w; st_secrets := st_secrets w;
     secrets_parsed := secrets_parsed w; etc_secrets := etc_secrets w;
     network := net; sent := sent w ++ rqs; fs := fs w;
     ydl_calls := ydl_calls w; bucket_name := bucket_name w;
     bucket := bucket w; boto3_faults := boto3_faults w; screen := screen w;
     authenticated := authenticated w |}.

Definition get (authorization u : str) : request :=
  {| method := GET; url := u; authorization := authorization |}.

(** ** The configuration lookup in the words of the specification *)


(** "Sourced from environment, then a local secrets store, then a
    file-based secrets store, first match wins": a source matches when it
    holds the key. *)
Definition first_match (key : str) (w : World) : option str :=
  match environ w !! key with
  | Some v => Some v
  | None =>
      match st_secrets w ≫= (.!! key) with
      | Some v => Some v
      | None => etc_secrets w ≫= (.!! key)
      end
  end.

(** The same order, where the environment matches only with a value
    that is not empty. *)
Definition env_match (key : str) (w : World) : option str :=
  match environ w !! key with
  | Some (c :: v) => Some (c :: v)
  | _ => None
  end.

Definition first_usable (key : str) (w : World) : option str :=
  match env_match key w with
  | Some v => Some v
  | None =>
      match st_secrets w ≫= (.!! key) with
      | Some v => Some v
      | None => etc_secrets w ≫= (.!! key)
      end
  end.

(** The world after a lookup of [key]: a lookup that gets past the
    environment reads [st.secrets], and the first read of a secrets file
    copies its values into the environment. *)
Definition looked_up (key : str) (w : World) : World :=
  match env_match key w with
  | Some _ => w
  | None => load_secrets w
  end.

Definition lookups (keys : list str) (w : World) : World :=
  foldl (fun w key => looked_up key w) w keys.

(** The secret the gate compares with. *)
Definition gate_secret (w : World) : str :=
  default ACCESS_CODE_DEFAULT (first_usable (py "ACCESS_CODE") w).

(** A string that does not begin with white space. *)
Definition starts_clean (s : str) : Prop :=
  match s with
  | [] => True
  | c :: _ => isspace c = false
  end.

(** The entry of a key in a listing with the delimiter '/'. *)
Definition rolled_up (key : str) : str + str :=
  match through_slash key with
  | Some p => inr p
  | None => inl key
  end.

Definition prefix_of (e : str + str) : option str :=
  match e with
  | inr p => Some p
  | inl _ => None
  end.

Definition DOT : char := 46.

(** The value [a.get('name', '')] of an artist object. *)
Definition artist_name_value (a v : json) : Prop :=
  exists fields,
    a = JObj fields
    /\ v = match assoc (py "name") fields with Some x => x | None => JStr [] end.

Definition is_str (v : json) : Prop := exists s, v = JStr s.

(** ** Frames: what a step leaves alone *)

(** The environment is as it was, or the secrets file has been read in
    between. *)
Definition secrets_read (w w' : World) : Prop :=
  (environ w' = environ w /\ secrets_parsed w' = secrets_parsed w)
  \/ (environ w' = environ (load_secrets w)
      /\ secrets_parsed w' = secrets_parsed (load_secrets w)).

(** Only the network was used: requests were sent, outcomes were taken
    off the network, the secrets file may have been read, and nothing
    else differs. *)
Definition only_requests (w w' : World) : Prop :=
  secrets_read w w' /\ st_secrets w' = st_secrets w
  /\ etc_secrets w' = etc_secrets w /\ fs w' = fs w
  /\ ydl_calls w' = ydl_calls w
  /\ bucket_name w' = bucket_name w /\ bucket w' = bucket w
  /\ boto3_faults w' = boto3_faults w
  /\ screen w' = screen w /\ authenticated w' = authenticated w
  /\ (exists rqs, sent w' = sent w ++ rqs)
  /\ (exists used, network w = used ++ network w').

(** The page shows what it showed. *)
Definition same_screen (w w' : World) : Prop := screen w' = screen w.

(** The bucket lost nothing, and what differs lies under [folder/]. *)
Definition writes_under (folder : str) (w w' : World) : Prop :=
  forall key,
    (is_Some (bucket w !! key) -> is_Some (bucket w' !! key))
    /\ (bucket w' !! key <> bucket w !! key ->
        startswith key (folder ++ py "/") = true).

(** ** A store that works *)

(** The world after a call into boto3 that did not raise. *)
Definition answered (w : World) : World :=
  set_boto3_faults (tail (boto3_faults w)) w.

(** The world after a call of the store that was answered: the client
    was made, the bucket looked up and the request sent. *)
Definition b2_session (w : World) : World :=
  answered
    (looked_up (py "B2_BUCKET")
       (answered (lookups [py "B2_ENDPOINT"; py "B2_KEY_ID"; py "B2_APP_KEY"] w))).

(** B2_BUCKET names the bucket of the service, before and after the
    secrets file is read. *)
Definition configured (w : World) : Prop :=
  first_usable (py "B2_BUCKET") w = Some (bucket_name w)
  /\ first_usable (py "B2_BUCKET") (load_secrets w) = Some (bucket_name w).

(** Two worlds with the same configuration. *)
Definition same_config (w w' : World) : Prop :=
  environ w' = environ w /\ st_secrets w' = st_secrets w
  /\ secrets_parsed w' = secrets_parsed w /\ etc_secrets w' = etc_secrets w
  /\ bucket_name w' = bucket_name w.

(** What a call of the store leaves alone when it writes nothing: all but
    the environment, the mark of the secrets file and the faults to come. *)
Definition store_frame (w w' : World) : Prop :=
  st_secrets w' = st_secrets w /\ etc_secrets w' = etc_secrets w
  /\ network w' = network w /\ sent w' = sent w /\ fs w' = fs w
  /\ ydl_calls w' = ydl_calls w /\ bucket_name w' = bucket_name w
  /\ bucket w' = bucket w /\ screen w' = screen w
  /\ authenticated w' = authenticated w.

(** No source holds [key]. *)
Definition unset (key : str) (w : World) : Prop :=
  environ w !! key = None
  /\ st_secrets w ≫= (.!! key) = None
  /\ etc_secrets w ≫= (.!! key) = None.

(** The store is configured and no call into boto3 raises. *)
Definition store_works (w : World) : Prop :=
  configured w /\ Forall (fun fault => fault = None) (boto3_faults w).

(** ** The listing in the words of the specification *)

(** The service lists the keys of the bucket, in some order. *)
Definition lists_the_keys `{Platform} : Prop :=
  forall (m : gmap str bytes) (k : str), k ∈ backend_order m <-> is_Some (m !! k).

(** "{key, filename}" for an object: the file name is the last
    '/'-separated segment of the key. *)
Definition song_of (key : str) : song :=
  {| song_key := key; song_name := basename key |}.

(** The keys [listObjects(folder)] is about. *)
Definition in_folder (folder key : str) : bool :=
  startswith key (folder ++ py "/") && endswith key (py ".mp3").

(** ** The download loop in the words of the specification *)

(** The downloader leaves the directories it finds in place. *)
Definition keeps_directories `{Platform} : Prop :=
  forall opts queries f d,
    is_Some (dirs f !! d) -> is_Some (dirs (ydl_download opts queries f) !! d).

(** The world in which the fetcher is called for track [i]: the status
    line is shown and the temporary directory is there. *)
Definition entering `{Platform} (n i : nat) (song : str) (w : World) : World :=
  set_fs (make_dir (mkdtemp (fs w)) (fs w)) (show (status_text (i + 1) n song) w).









(** "Report progress as (index+1) / totalCount after each track": what
    the page shows for the tracks from index [i] on. *)
Fixpoint reports (n i : nat) (canciones : list str) : list ui_event :=
  match canciones with
  | [] => []
  | song :: rest =>
      status_text (i + 1) n song :: progress (fraction i n) :: reports n (S i) rest
  end.

Definition search_query (song : str) : list str := [py "ytsearch1:" ++ song].

(** The request of [get_spotify_access_token]. *)
Definition token_request `{Platform} (w : World) : request :=
  {| method := POST;
     url := py "https://accounts.spotify.com/api/token";
     authorization :=
       py "Basic "
       ++ b64encode
            (format_secret (first_usable (py "SPOTIFY_CLIENT_ID") w) ++ py ":"
             ++ format_secret
                  (first_usable (py "SPOTIFY_CLIENT_SECRET")
                     (looked_up (py "SPOTIFY_CLIENT_ID") w))) |}.

(** The world after the two lookups of [get_spotify_access_token]. *)
Definition credentials_read (w : World) : World :=
  lookups [py "SPOTIFY_CLIENT_ID"; py "SPOTIFY_CLIENT_SECRET"] w.

Definition tracks_url (playlist_id : str) : str :=
  py "https://api.spotify.com/v1/playlists/" ++ playlist_id ++ py "/tracks".

Definition bearer `{Platform} (access_token : json) : str :=
  py "Bearer " ++ format_value access_token.

(** ** A concrete platform and world, to run the program on *)

Module Demo.

(** The downloader of the runs below: it finds every song except those
    whose query contains "Missing", and writes [<title>.mp3] beside the
    template. *)
Definition downloader (opts : ydl_options) (queries : list str) (f : FS) : FS :=
  let dir := take (length (outtmpl opts) - 18) (outtmpl opts) in
  match queries with
  | [q] =>
      if contains q (py "Missing") then f
      else
        let name := drop 10 q ++ py ".mp3" in
        {| files := <[dir ++ py "/" ++ name := q]> (files f);
           dirs := <[dir := [name]]> (dirs f) |}
  | _ => f
  end.

(** The order of the keys in a listing of the service: ascending. *)
Fixpoint key_leb (a b : str) : bool :=
  match a, b with
  | [], _ => true
  | _ :: _, [] => false
  | x :: a', y :: b' => (x <? y) || ((x =? y) && key_leb a' b')
  end.

#[local] Instance platform : Platform := {|
  unicode_isalnum := fun _ => false;
  py_repr := fun _ => py "?";
  b64encode := fun s => s;
  ydl_download := downloader;
  mkdtemp := fun _ => py "/tmp/tmpdemo";
  backend_order := fun m => merge_sort (fun a b => key_leb a b) (map_to_list m).*1
|}.

(** A world in which nothing has happened yet; of the configuration, only
    the bucket is named. *)
Definition empty_world : World :=
  {| environ := {[ py "B2_BUCKET" := py "music" ]};
     st_secrets := None; secrets_parsed := false; etc_secrets := None;
     network := []; sent := []; fs := {| files := ∅; dirs := ∅ |};
     ydl_calls := []; bucket_name := py "music"; bucket := ∅;
     boto3_faults := []; screen := []; authenticated := false |}.

Definition ok (j : json) : http_outcome :=
  Responds {| status_code := 200; body := Some j |}.

Definition token : json := JObj [(py "access_token", JStr (py "tok"))].

Definition item (name : string) (artists : list string) : json :=
  JObj [(py "track",
         JObj [(py "name", JStr (py name));
               (py "artists",
                JArr (map (fun a => JObj [(py "name", JStr (py a))]) artists))])].

Definition page (items : list json) (next : json) : json :=
  JObj [(py "items", JArr items); (py "next", next)].

Definition playlist_url : str :=
  py "https://open.spotify.com/playlist/37i9dQZF1DXcBWIGoYBM5M?si=abc".

Definition one_page : list http_outcome :=
  [ ok token;
    ok (page [item "One" ["A"; "B"]; item "Missing" ["C"]; item "Three" ["D"]] JNull) ].

Definition track (name : string) (names : list string) : option Track :=
  Some {| title := py name; artists := map py names |}.

(** Three pages of the tracks endpoint, and what they say. *)
Definition three_pages : list response :=
  [ {| status_code := 200;
       body := Some (page [item "One" ["A"; "B"]; item "" ["X"]]
                          (JStr (py "https://api.spotify.com/page2"))) |};
    {| status_code := 200;
       body := Some (page [JObj [(py "track", JNull)]; item "Two" []]
                          (JStr (py "https://api.spotify.com/page3"))) |};
    {| status_code := 200;
       body := Some (page [item "Three" ["C"]] JNull) |} ].

Definition three_pages_say : list Page :=
  [ {| entries := [track "One" ["A"; "B"]; track "" ["X"]];
       next := Some (py "https://api.spotify.com/page2") |};
    {| entries := [None; track "Two" []];
       next := Some (py "https://api.spotify.com/page3") |};
    {| entries := [track "Three" ["C"]]; next := None |} ].

(** A folder of 1001 songs. *)
Definition many_songs : gmap str bytes :=
  list_to_map
    (map (fun i => (py "f/" ++ str_of_Z (Z.of_nat i) ++ py ".mp3", [])) (seq 0 1001)).

(** A playlist of one track, on one page. *)
Definition one_track : list http_outcome :=
  [ ok token; ok (page [item "One" ["A"]] JNull) ].

Definition token_ok : response := {| status_code := 200; body := Some token |}.

Definition server_error : response := {| status_code := 500; body := None |}.

End Demo.

(** * Properties *)

(** ** Strings *)

Ltac char_eq c d :=
  let E := fresh "E" in
  destruct (N.eqb_spec c d) as [E | E]; [try subst | idtac].

Lemma split_no_sep (sep : char) (p : str) :
  sep ∉ p -> split sep p = [p].
Proof.
  induction p as [| c p IH]; intros Hp; [reflexivity |].
  apply not_elem_of_cons in Hp as [Hc Hp]. cbn.
  char_eq c sep; [congruence |]. by rewrite IH.
Qed.

Lemma split_at_sep (sep : char) (p s : str) :
  sep ∉ p -> split sep (p ++ sep :: s) = p :: split sep s.
Proof.
  induction p as [| c p IH]; intros Hp; cbn.
  - by rewrite N.eqb_refl.
  - apply not_elem_of_cons in Hp as [Hc Hp].
    char_eq c sep; [congruence |]. by rewrite IH.
Qed.

Lemma split_join (sep : char) (segs : list str) :
  segs <> [] -> Forall (fun seg => sep ∉ seg) segs ->
  split sep (join [sep] segs) = segs.
Proof.
  induction segs as [| seg segs IH]; intros Hne Hall; [done |].
  apply Forall_cons in Hall as [Hseg Hall].
  destruct segs as [| seg' segs]; cbn -[split].
  - by apply split_no_sep.
  - change (seg ++ [sep] ++ join [sep] (seg' :: segs))
      with (seg ++ sep :: join [sep] (seg' :: segs)).
    rewrite split_at_sep by done. f_equal. by apply IH.
Qed.

Lemma join_no_char (c sep : char) (segs : list str) :
  c <> sep -> Forall (fun seg => c ∉ seg) segs -> c ∉ join [sep] segs.
Proof.
  intros Hc. induction 1 as [| seg segs Hseg Hall IH]; cbn.
  - apply not_elem_of_nil.
  - destruct segs as [| seg' segs]; [done |].
    change (c ∉ seg ++ sep :: join [sep] (seg' :: segs)).
    rewrite not_elem_of_app, not_elem_of_cons. done.
Qed.

Lemma split_nonempty (sep : char) (s : str) : split sep s <> [].
Proof.
  destruct s as [| c s]; cbn; [done |].
  destruct (c =? sep); [done |]. by destruct (split sep s).
Qed.

Lemma split_two (sep : char) (s : str) :
  existsb (N.eqb sep) s = true -> exists a b rest, split sep s = a :: b :: rest.
Proof.
  induction s as [| c s IH]; cbn; [done |].
  rewrite (N.eqb_sym sep c). destruct (c =? sep); cbn.
  - intros _. pose proof (split_nonempty sep s).
    destruct (split sep s) as [| b rest]; [done |]. by eexists _, _, _.
  - intros Hs. destruct (IH Hs) as (a & b & rest & ->). by eexists _, _, _.
Qed.

Lemma existsb_not_elem (sep : char) (s : str) :
  existsb (N.eqb sep) s = false -> sep ∉ s.
Proof.
  induction s as [| c s IH]; cbn; [intros _; apply not_elem_of_nil |].
  intros [Hc Hs]%orb_false_elim. apply not_elem_of_cons. split; [| by apply IH].
  by apply N.eqb_neq.
Qed.

(** [os.path.basename(p)] is [p.split('/')[-1]]. *)
Lemma basename_last (p : str) : last (split SLASH p) = Some (basename p).
Proof.
  induction p as [| c p IH]; [reflexivity |]. cbn -[last].
  destruct (c =? SLASH); cbn -[last].
  - pose proof (split_nonempty SLASH p).
    destruct (split SLASH p) as [| q qs]; [done | exact IH].
  - destruct (existsb (N.eqb SLASH) p) eqn:Hp.
    + destruct (split_two SLASH p Hp) as (a & b & rest & Hsplit).
      rewrite Hsplit in *. exact IH.
    + apply existsb_not_elem in Hp. by rewrite split_no_sep.
Qed.

Lemma startswith_spec (s pre : str) :
  startswith s pre = true <-> exists rest, s = pre ++ rest.
Proof.
  revert s. induction pre as [| a pre IH]; intros s; cbn.
  - split; [by eexists | done].
  - destruct s as [| c s].
    + split; [done | by intros [rest Hrest]].
    + rewrite andb_true_iff, N.eqb_eq, IH. split.
      * intros [-> [rest ->]]. by eexists.
      * intros [rest [= -> ->]]. split; [done | by eexists].
Qed.

Lemma endswith_spec (s suf : str) :
  endswith s suf = true <-> exists stem, s = stem ++ suf.
Proof.
  unfold endswith. rewrite startswith_spec. split.
  - intros [rest Hrest]. exists (rev rest).
    rewrite <- (rev_involutive s), Hrest, rev_app_distr. by rewrite !rev_involutive.
  - intros [stem ->]. exists (rev stem). by rewrite rev_app_distr.
Qed.

Lemma os_path_join_inside (a f : str) :
  SLASH ∉ f ->
  exists sep, (sep = [] \/ sep = [SLASH]) /\ os_path_join a f = a ++ sep ++ f.
Proof.
  intros Hf. unfold os_path_join.
  assert (startswith f [SLASH] = false) as ->.
  { destruct f as [| c f]; [done |]. apply not_elem_of_cons in Hf as [Hc _].
    cbn. char_eq c SLASH; [congruence | done]. }
  destruct (_ || _); [exists [] | exists [SLASH]]; auto.
Qed.

(** ** C5: the playlist identifier *)

Lemma first_of_length_22_found (pre post : list str) (id : str) :
  Forall (fun seg => length seg <> 22%nat) pre -> length id = 22%nat ->
  first_of_length_22 (pre ++ id :: post) = Ok id.
Proof.
  intros Hpre Hid. induction Hpre as [| seg pre Hseg Hpre IH]; cbn.
  - by rewrite Hid.
  - destruct (Nat.eqb_spec (length seg) 22); [done | exact IH].
Qed.

Lemma first_of_length_22_none (segs : list str) :
  Forall (fun seg => length seg <> 22%nat) segs ->
  first_of_length_22 segs
  = Raise (ValueError (py "No se pudo extraer el ID de la playlist")).
Proof.
  induction 1 as [| seg segs Hseg Hall IH]; cbn; [done |].
  destruct (Nat.eqb_spec (length seg) 22); [done | exact IH].
Qed.

Lemma path_of_url (segs : list str) (query : str) :
  Forall segment segs -> query_string query ->
  exists rest, split QMARK (join [SLASH] segs ++ query) = join [SLASH] segs :: rest.
Proof.
  intros Hsegs Hq.
  assert (QMARK ∉ join [SLASH] segs) as Hno.
  { apply join_no_char; [done |]. eapply Forall_impl; [exact Hsegs |]. by intros ? []. }
  destruct Hq as [-> | [q' ->]].
  - rewrite app_nil_r, split_no_sep by done. by eexists.
  - rewrite split_at_sep by done. by eexists.
Qed.

(** C5. Let the URL, once stripped, be slash-separated segments followed by
    an optional query string. When one segment has 22 characters,
    [extract_playlist_id] returns that identifier (the first such segment);
    when no segment has 22 characters it raises [ValueError]. *)
Theorem extract_playlist_id_spec (playlist_url : str) (segs : list str) (query : str) :
  strip playlist_url = join [SLASH] segs ++ query ->
  segs <> [] -> Forall segment segs -> query_string query ->
  (forall pre id post,
      segs = pre ++ id :: post ->
      length id = 22%nat ->
      Forall (fun seg => length seg <> 22%nat) pre ->
      extract_playlist_id playlist_url = Ok id)
  /\ (Forall (fun seg => length seg <> 22%nat) segs ->
      exists msg, extract_playlist_id playlist_url = Raise (ValueError msg)).
Proof.
  intros Hurl Hne Hsegs Hq.
  destruct (path_of_url segs query Hsegs Hq) as [rest Hpath].
  assert (split SLASH (join [SLASH] segs) = segs) as Hparts.
  { apply split_join; [done |]. eapply Forall_impl; [exact Hsegs |]. by intros ? []. }
  unfold extract_playlist_id. rewrite Hurl, Hpath, Hparts. split.
  - intros pre id post -> Hid Hpre. by apply first_of_length_22_found.
  - intros Hnone. eexists. by apply first_of_length_22_none.
Qed.

Lemma extract_playlist_id_spec_witness :
  extract_playlist_id Demo.playlist_url = Ok (py "37i9dQZF1DXcBWIGoYBM5M").
Proof.
  refine (proj1 (extract_playlist_id_spec Demo.playlist_url
            [py "https:"; []; py "open.spotify.com"; py "playlist";
             py "37i9dQZF1DXcBWIGoYBM5M"]
            (py "?si=abc") _ _ _ _)
            [py "https:"; []; py "open.spotify.com"; py "playlist"]
            (py "37i9dQZF1DXcBWIGoYBM5M") [] _ _ _).
  - reflexivity.
  - discriminate.
  - compute_done.
  - right. by eexists.
  - reflexivity.
  - reflexivity.
  - compute_done.
Defined.

(** ** C9 and C10: the configuration lookup *)

Lemma get_secret_first_usable (key : str) (d : option str) (w : World) :
  get_secret key d w
  = (Ok (match first_usable key w with Some v => Some v | None => d end),
     looked_up key w).
Proof.
  unfold get_secret, first_usable, looked_up, env_match, st_secrets_getitem,
    etc_secrets_lookup, load_secrets.
  destruct (environ w !! key) as [[| c v] |]; try reflexivity;
    destruct (st_secrets w) as [secrets |] eqn:Hsecrets; cbn;
    try (destruct (secrets !! key); cbn; try reflexivity;
         destruct (secrets_parsed w); cbn);
    destruct (etc_secrets w) as [data |]; cbn; try reflexivity;
    destruct (data !! key); reflexivity.
Qed.

Lemma gate_secret_found (w : World) :
  get_secret (py "ACCESS_CODE") (Some ACCESS_CODE_DEFAULT) w
  = (Ok (Some (gate_secret w)), looked_up (py "ACCESS_CODE") w).
Proof.
  rewrite get_secret_first_usable. unfold gate_secret.
  by destruct (first_usable _ w).
Qed.

Lemma authenticated_looked_up (key : str) (w : World) :
  authenticated (looked_up key w) = authenticated w.
Proof.
  unfold looked_up, load_secrets.
  destruct (env_match key w); [done |].
  destruct (st_secrets w); [| done]. by destruct (secrets_parsed w).
Qed.

Lemma screen_looked_up (key : str) (w : World) :
  screen (looked_up key w) = screen w.
Proof.
  unfold looked_up, load_secrets.
  destruct (env_match key w); [done |].
  destruct (st_secrets w); [| done]. by destruct (secrets_parsed w).
Qed.

(** C9, as amended. [get_secret] consults the environment as it stands at
    that moment, then the local secrets store, then the file-based one,
    and returns the first match, where the environment matches only with
    a non-empty value; without a match it returns the default, and for
    ACCESS_CODE the gate then compares with "mi_codigo_secreto_123". A
    lookup that gets past the environment reads the local secrets store,
    and the first read of that store copies its values into the
    environment, over the value a variable had: from then on a non-empty
    value of the store is what a lookup returns, whatever the variable
    was set to. *)
Theorem get_secret_order (key : str) (d : option str) (v : visit) (w : World) :
  get_secret key d w
  = (Ok (match first_usable key w with Some s => Some s | None => d end),
     looked_up key w)
  /\ (get_secret (py "ACCESS_CODE") (Some ACCESS_CODE_DEFAULT) w).1
     = Ok (Some (gate_secret w))
  /\ (check_access v w).1
     = Ok (if authenticated w then Proceed
           else if decide (query_code v = Some (gate_secret w)) then Rerun
           else if form_submitted v && bool_decide (code_input v = gate_secret w)
                then Rerun else Stop)
  /\ (forall secrets,
        env_match key w = None -> st_secrets w = Some secrets ->
        secrets_parsed w = false ->
        let w' := (get_secret key d w).2 in
        environ w' = secrets ∪ environ w
        /\ forall key' d' c s,
             secrets !! key' = Some (c :: s) ->
             (get_secret key' d' w').1 = Ok (Some (c :: s))).
Proof.
  split; [apply get_secret_first_usable |].
  split; [by rewrite gate_secret_found |].
  split.
  - unfold check_access, io_bind at 1. rewrite gate_secret_found.
    unfold io_bind, ask, effect, io_ret. rewrite authenticated_looked_up.
    destruct (authenticated w); [reflexivity |].
    destruct (decide (query_code v = Some (gate_secret w))) as [Hq | Hq];
      [reflexivity |].
    destruct (form_submitted v); [| reflexivity]. cbn.
    destruct (decide (Some (code_input v) = Some (gate_secret w))) as [Hc | Hc].
    + injection Hc as Hc. by rewrite bool_decide_eq_true_2.
    + rewrite bool_decide_eq_false_2; [reflexivity | congruence].
  - intros secrets Henv Hsecrets Hparsed w'. subst w'.
    rewrite get_secret_first_usable. cbn [snd].
    assert (environ (looked_up key w) = secrets ∪ environ w) as Hloaded.
    { unfold looked_up, load_secrets. by rewrite Henv, Hsecrets, Hparsed. }
    split; [exact Hloaded |].
    intros key' d' c s Hkey'. rewrite get_secret_first_usable. cbn [fst].
    unfold first_usable, env_match. rewrite Hloaded.
    by rewrite (lookup_union_Some_l _ _ _ _ Hkey').
Qed.

Lemma get_secret_order_witness :
  let w := set_st_secrets (Some {[ py "ACCESS_CODE" := py "file" ]})
             (set_environ {[ py "ACCESS_CODE" := py "operator" ]} Demo.empty_world) in
  let w' := (get_secret (py "SPOTIFY_CLIENT_ID") None w).2 in
  environ w' !! py "ACCESS_CODE" = Some (py "file")
  /\ (get_secret (py "ACCESS_CODE") (Some ACCESS_CODE_DEFAULT) w').1
     = Ok (Some (py "file")).
Proof.
  intros w w'.
  destruct (get_secret_order (py "SPOTIFY_CLIENT_ID") None
              {| query_code := None; form_submitted := false; code_input := [] |} w)
    as (_ & _ & _ & Hread).
  destruct (Hread {[ py "ACCESS_CODE" := py "file" ]}) as [Henv Hlater];
    [reflexivity | reflexivity | reflexivity |].
  split.
  - subst w'. rewrite Henv. clear Henv Hlater Hread. by vm_compute.
  - apply (Hlater (py "ACCESS_CODE") (Some ACCESS_CODE_DEFAULT) 102 (py "ile")).
    clear Henv Hlater Hread. by vm_compute.
Defined.

(** C9, as stated, fails twice over. With ACCESS_CODE set to the empty
    string in the environment and to "x" in the local secrets store, the
    environment is the first source that holds the key, and [get_secret]
    returns "x". And with ACCESS_CODE set to "operator" in the environment
    and to "file" in the local secrets store, the gate compares with
    "operator" until a lookup of another key has read the store, and with
    "file" afterwards. *)
Lemma get_secret_not_first_match :
  let key := py "ACCESS_CODE" in
  let w := set_st_secrets (Some {[ key := py "x" ]})
             (set_environ {[ key := [] ]} Demo.empty_world) in
  let w1 := set_st_secrets (Some {[ key := py "file" ]})
              (set_environ {[ key := py "operator" ]} Demo.empty_world) in
  let w2 := (get_secret (py "SPOTIFY_CLIENT_ID") None w1).2 in
  (first_match key w = Some []
   /\ (get_secret key (Some ACCESS_CODE_DEFAULT) w).1 = Ok (Some (py "x"))
   /\ (get_secret key (Some ACCESS_CODE_DEFAULT) w).1 <> Ok (first_match key w))
  /\ (first_match key w1 = Some (py "operator")
      /\ (get_secret key (Some ACCESS_CODE_DEFAULT) w1).1 = Ok (Some (py "operator"))
      /\ environ w2 !! key = Some (py "file")
      /\ (get_secret key (Some ACCESS_CODE_DEFAULT) w2).1 = Ok (Some (py "file"))).
Proof. by vm_compute. Qed.

(** C10. An environment variable set to the empty string counts as unset:
    the lookup goes on to the local secrets store and returns what it holds
    for the key, be it the empty string. *)
Theorem get_secret_empty_values (key : str) (d : option str) (v : str)
  (env secrets : gmap str str) (w : World) :
  (get_secret key d (set_environ (<[key := []]> env) w)).1
  = (get_secret key d (set_environ (delete key env) w)).1
  /\ (get_secret key d
        (set_st_secrets (Some (<[key := v]> secrets))
           (set_environ (<[key := []]> env) w))).1 = Ok (Some v)
  /\ (get_secret key d
        (set_st_secrets (Some (<[key := []]> secrets))
           (set_environ (delete key env) w))).1 = Ok (Some []).
Proof.
  rewrite !get_secret_first_usable. cbn [fst].
  unfold first_usable, env_match. cbn.
  by rewrite !lookup_insert_eq, !lookup_delete_eq.
Qed.

(** ** The store session *)

Lemma looked_up_cases (key : str) (w : World) :
  exists env parsed, looked_up key w = set_secrets_parsed parsed (set_environ env w).
Proof.
  unfold looked_up, load_secrets.
  destruct (env_match key w);
    [exists (environ w), (secrets_parsed w); by destruct w |].
  destruct (st_secrets w) as [secrets |];
    [| exists (environ w), (secrets_parsed w); by destruct w].
  destruct (secrets_parsed w) eqn:Hparsed; [| by eexists _, _].
  exists (environ w), true. destruct w; cbn in *. by subst.
Qed.

Lemma lookups_cases (keys : list str) (w : World) :
  exists env parsed, lookups keys w = set_secrets_parsed parsed (set_environ env w).
Proof.
  revert w. induction keys as [| key keys IH]; intros w.
  - exists (environ w), (secrets_parsed w). by destruct w.
  - cbn [lookups foldl].
    destruct (looked_up_cases key w) as (env & parsed & ->).
    destruct (IH (set_secrets_parsed parsed (set_environ env w)))
      as (env' & parsed' & Hrest).
    exists env', parsed'. exact Hrest.
Qed.

Lemma load_secrets_load_secrets (w : World) :
  load_secrets (load_secrets w) = load_secrets w.
Proof.
  unfold load_secrets. destruct (st_secrets w) as [secrets |] eqn:Hsecrets.
  - destruct (secrets_parsed w) eqn:Hparsed.
    + by rewrite Hsecrets, Hparsed.
    + cbn. by rewrite Hsecrets.
  - by rewrite Hsecrets.
Qed.

Lemma configured_frame (w w' : World) :
  same_config w w' -> configured w -> configured w'.
Proof.
  unfold same_config, configured, first_usable, env_match, load_secrets.
  destruct w as [env [secrets |] [|] ? ? ? ? ? ? ? ? ? ?], w'; cbn;
    intros (-> & -> & -> & -> & ->); done.
Qed.

Lemma configured_load_secrets (w : World) :
  configured w -> configured (load_secrets w).
Proof.
  intros [_ Hloaded]. split.
  - rewrite Hloaded. f_equal. unfold load_secrets.
    destruct (st_secrets w); [| done]. by destruct (secrets_parsed w).
  - rewrite load_secrets_load_secrets, Hloaded. f_equal. unfold load_secrets.
    destruct (st_secrets w); [| done]. by destruct (secrets_parsed w).
Qed.

Lemma configured_looked_up (key : str) (w : World) :
  configured w -> configured (looked_up key w).
Proof.
  unfold looked_up. destruct (env_match key w); [done |].
  apply configured_load_secrets.
Qed.

Lemma configured_lookups (keys : list str) (w : World) :
  configured w -> configured (lookups keys w).
Proof.
  revert w. induction keys as [| key keys IH]; intros w Hw; [done |].
  apply IH. by apply configured_looked_up.
Qed.

Lemma store_works_frame (w w' : World) :
  same_config w w' -> boto3_faults w' = boto3_faults w ->
  store_works w -> store_works w'.
Proof.
  intros Hconfig Hfaults [Hw Hnone]. split.
  - by apply (configured_frame w).
  - by rewrite Hfaults.
Qed.

Lemma store_works_looked_up (key : str) (w : World) :
  store_works w -> store_works (looked_up key w).
Proof.
  intros [Hw Hnone]. split; [by apply configured_looked_up |].
  by destruct (looked_up_cases key w) as (env & parsed & ->).
Qed.

Lemma store_works_lookups (keys : list str) (w : World) :
  store_works w -> store_works (lookups keys w).
Proof.
  intros [Hw Hnone]. split; [by apply configured_lookups |].
  by destruct (lookups_cases keys w) as (env & parsed & ->).
Qed.

Lemma store_works_answered (w : World) :
  store_works w -> store_works (answered w).
Proof.
  intros [Hw Hnone]. split.
  - by apply (configured_frame w).
  - cbn. destruct (boto3_faults w) as [| fault rest]; [done |].
    by apply Forall_cons in Hnone as [_ Hrest].
Qed.

Lemma store_works_b2_session (w : World) :
  store_works w -> store_works (b2_session w).
Proof.
  intros Hw. unfold b2_session.
  by apply store_works_answered, store_works_looked_up, store_works_answered,
    store_works_lookups.
Qed.

(** What a session leaves alone. *)
Lemma b2_session_cases (w : World) :
  exists env parsed faults,
    b2_session w
    = set_boto3_faults faults (set_secrets_parsed parsed (set_environ env w)).
Proof.
  unfold b2_session.
  destruct (lookups_cases [py "B2_ENDPOINT"; py "B2_KEY_ID"; py "B2_APP_KEY"] w)
    as (env & parsed & ->).
  destruct (looked_up_cases (py "B2_BUCKET")
              (answered (set_secrets_parsed parsed (set_environ env w))))
    as (env' & parsed' & ->).
  by eexists _, _, _.
Qed.

Lemma boto3_call_ok (w : World) :
  Forall (fun fault => fault = None) (boto3_faults w) ->
  boto3_call w = (Ok tt, answered w).
Proof.
  unfold boto3_call, answered. intros Hnone.
  destruct (boto3_faults w) as [| fault rest] eqn:Hfaults.
  - f_equal. destruct w; cbn in *. by subst.
  - apply Forall_cons in Hnone as [-> _]. reflexivity.
Qed.

Lemma get_b2_client_ok (w : World) :
  Forall (fun fault => fault = None) (boto3_faults w) ->
  exists b2,
    get_b2_client w
    = (Ok b2, answered (lookups [py "B2_ENDPOINT"; py "B2_KEY_ID"; py "B2_APP_KEY"] w)).
Proof.
  intros Hnone. unfold get_b2_client, io_bind at 1.
  rewrite get_secret_first_usable. unfold io_bind at 1.
  rewrite get_secret_first_usable. unfold io_bind at 1.
  rewrite get_secret_first_usable. unfold boto3_client, io_bind, io_ret.
  rewrite boto3_call_ok; [by eexists |].
  change (looked_up _ (looked_up _ (looked_up _ w)))
    with (lookups [py "B2_ENDPOINT"; py "B2_KEY_ID"; py "B2_APP_KEY"] w).
  by destruct (lookups_cases [py "B2_ENDPOINT"; py "B2_KEY_ID"; py "B2_APP_KEY"] w)
    as (env & parsed & ->).
Qed.

Lemma send_ok (b2 : b2_client) (w : World) :
  Forall (fun fault => fault = None) (boto3_faults w) ->
  send b2 (bucket_name w) w = (Ok tt, answered w).
Proof.
  intros Hnone. unfold send, io_bind, ask, io_ret. rewrite boto3_call_ok by done.
  by rewrite bool_decide_eq_true_2.
Qed.

(** On a store that works, the first two lines of a store function give
    a client and the name of the bucket. *)
Lemma b2_open_ok {A : Type} (k : b2_client -> option str -> io A) (w : World) :
  store_works w ->
  let w1 := looked_up (py "B2_BUCKET")
              (answered (lookups [py "B2_ENDPOINT"; py "B2_KEY_ID"; py "B2_APP_KEY"] w)) in
  exists b2,
    io_bind get_b2_client (fun b2 => io_bind (get_secret (py "B2_BUCKET") None) (k b2)) w
    = k b2 (Some (bucket_name w1)) w1
    /\ store_works w1 /\ answered w1 = b2_session w.
Proof.
  intros Hw w1. destruct (get_b2_client_ok w) as [b2 Hclient]; [apply Hw |].
  exists b2. unfold io_bind at 1. rewrite Hclient. unfold io_bind.
  rewrite get_secret_first_usable. fold w1.
  assert (store_works w1) as Hw1.
  { by apply store_works_looked_up, store_works_answered, store_works_lookups. }
  assert (store_works (answered
            (lookups [py "B2_ENDPOINT"; py "B2_KEY_ID"; py "B2_APP_KEY"] w))) as Hw0.
  { by apply store_works_answered, store_works_lookups. }
  split; [| by split].
  destruct Hw0 as [[Hname _] _]. rewrite Hname.
  f_equal. f_equal. subst w1.
  by destruct (looked_up_cases (py "B2_BUCKET")
                 (answered (lookups [py "B2_ENDPOINT"; py "B2_KEY_ID"; py "B2_APP_KEY"] w)))
    as (env & parsed & ->).
Qed.

Lemma store_frame_refl (w : World) : store_frame w w.
Proof. by repeat split. Qed.

Lemma store_frame_trans (w1 w2 w3 : World) :
  store_frame w1 w2 -> store_frame w2 w3 -> store_frame w1 w3.
Proof. unfold store_frame. intuition congruence. Qed.

(** A property of the worlds before and after, carried through a bind. *)
Lemma io_bind_frame {A B : Type} (R : World -> World -> Prop) (m : io A)
  (k : A -> io B) :
  (forall w1 w2 w3, R w1 w2 -> R w2 w3 -> R w1 w3) ->
  (forall w, R w (m w).2) -> (forall a w, R w (k a w).2) ->
  forall w, R w (io_bind m k w).2.
Proof.
  intros Htrans Hm Hk w. unfold io_bind. specialize (Hm w).
  destruct (m w) as [[a | e] w1]; [| done].
  eapply Htrans; [exact Hm | apply Hk].
Qed.

Lemma looked_up_frame (key : str) (w : World) : store_frame w (looked_up key w).
Proof. by destruct (looked_up_cases key w) as (env & parsed & ->). Qed.

Lemma get_secret_frame (key : str) (d : option str) (w : World) :
  store_frame w (get_secret key d w).2.
Proof. rewrite get_secret_first_usable. apply looked_up_frame. Qed.

Lemma boto3_call_frame (w : World) : store_frame w (boto3_call w).2.
Proof.
  unfold boto3_call. destruct (boto3_faults w); [apply store_frame_refl | done].
Qed.

Lemma get_b2_client_frame (w : World) : store_frame w (get_b2_client w).2.
Proof.
  revert w. unfold get_b2_client, boto3_client.
  repeat (apply (io_bind_frame store_frame);
          [exact store_frame_trans | intros w; apply get_secret_frame | intros ?]).
  apply (io_bind_frame store_frame);
    [exact store_frame_trans | exact boto3_call_frame |].
  intros _ w. apply store_frame_refl.
Qed.

Lemma send_frame (b2 : b2_client) (name : str) (w : World) :
  store_frame w (send b2 name w).2.
Proof.
  revert w. unfold send.
  apply (io_bind_frame store_frame);
    [exact store_frame_trans | exact boto3_call_frame |].
  intros _. apply (io_bind_frame store_frame);
    [exact store_frame_trans | intros w; apply store_frame_refl |].
  intros [|] w; apply store_frame_refl.
Qed.

Lemma b2_session_frame (w : World) : store_frame w (b2_session w).
Proof. by destruct (b2_session_cases w) as (env & parsed & faults & ->). Qed.

Lemma upload_song_to_b2_ok (file_path playlist_name : str) (data : bytes) (w : World) :
  store_works w -> files (fs w) !! file_path = Some data ->
  upload_song_to_b2 file_path playlist_name w
  = (Ok (playlist_name ++ py "/" ++ basename file_path),
     set_bucket (<[playlist_name ++ py "/" ++ basename file_path := data]> (bucket w))
       (b2_session w)).
Proof.
  intros Hw Hfile. unfold upload_song_to_b2.
  destruct (b2_open_ok
              (fun b2 bucket =>
                 io_bind (upload_file b2 file_path bucket
                            (playlist_name ++ py "/" ++ basename file_path))
                   (fun _ => io_ret (playlist_name ++ py "/" ++ basename file_path)))
              w Hw) as (b2 & -> & Hw1 & Hsession).
  set (w1 := looked_up _ _) in *.
  assert (fs w1 = fs w /\ bucket w1 = bucket w) as [Hfs Hbucket].
  { subst w1.
    destruct (lookups_cases [py "B2_ENDPOINT"; py "B2_KEY_ID"; py "B2_APP_KEY"] w)
      as (env & parsed & ->).
    by destruct (looked_up_cases (py "B2_BUCKET")
                   (answered (set_secrets_parsed parsed (set_environ env w))))
      as (env' & parsed' & ->). }
  unfold io_bind, upload_file, io_ret. rewrite Hfs, Hfile.
  rewrite send_ok by apply Hw1. rewrite Hsession.
  assert (bucket (b2_session w) = bucket w) as ->; [| done].
  by destruct (b2_session_cases w) as (env & parsed & faults & ->).
Qed.

(** Whatever the store does, an upload leaves the world as a call that
    writes nothing does, or with the one object written. *)
Lemma upload_song_to_b2_cases (file_path playlist_name : str) (w : World) :
  exists w1,
    store_frame w w1
    /\ ((upload_song_to_b2 file_path playlist_name w).2 = w1
        \/ exists data,
             (upload_song_to_b2 file_path playlist_name w).2
             = set_bucket
                 (<[playlist_name ++ py "/" ++ basename file_path := data]> (bucket w))
                 w1).
Proof.
  destruct (upload_song_to_b2 file_path playlist_name w) as [r wf] eqn:Hrun.
  cbn [snd]. revert Hrun.
  unfold upload_song_to_b2, io_bind at 1.
  pose proof (get_b2_client_frame w) as Hclient.
  destruct (get_b2_client w) as [[b2 | e] w1]; cbn [snd] in Hclient;
    [| intros [= _ <-]; exists w1; by split; [| left]].
  unfold io_bind at 1. rewrite get_secret_first_usable.
  pose proof (looked_up_frame (py "B2_BUCKET") w1) as Hlookup.
  set (w2 := looked_up (py "B2_BUCKET") w1) in *.
  assert (store_frame w w2) as Hw2 by by eapply store_frame_trans.
  destruct (first_usable (py "B2_BUCKET") w1) as [name |];
    [| intros [= _ <-]; exists w2; by split; [| left]].
  unfold io_bind, upload_file.
  destruct (files (fs w2) !! file_path) as [data |];
    [| intros [= _ <-]; exists w2; by split; [| left]].
  pose proof (send_frame b2 name w2) as Hsend.
  destruct (send b2 name w2) as [[[] | e] w3]; cbn [snd] in Hsend.
  - intros [= _ <-]. exists w3. split; [by eapply store_frame_trans |].
    right. exists data.
    assert (store_frame w w3) as Hw3 by by eapply store_frame_trans.
    destruct Hw3 as (_ & _ & _ & _ & _ & _ & _ & -> & _). reflexivity.
  - intros [= _ <-]. exists w3. split; [by eapply store_frame_trans | by left].
Qed.

(** ** C6: writing an object *)

(** A store that works in a closed world, by running the lookups. *)
Ltac store_works_here :=
  split; [split; vm_compute; reflexivity | vm_compute; repeat constructor].

(** C6. For a local file and a store that works, [upload_song_to_b2]
    returns the key [playlist_name + "/" + basename(file_path)], where the
    basename is the last slash-separated part of the path; afterwards the
    bucket holds the bytes of the file under that key, every other object
    is as before, and a key that was there already stays one object with
    the new bytes. *)
Theorem upload_song_to_b2_spec (file_path playlist_name : str) (data : bytes) (w : World) :
  store_works w ->
  files (fs w) !! file_path = Some data ->
  let key := playlist_name ++ py "/" ++ basename file_path in
  let w' := (upload_song_to_b2 file_path playlist_name w).2 in
  (upload_song_to_b2 file_path playlist_name w).1 = Ok key
  /\ last (split SLASH file_path) = Some (basename file_path)
  /\ bucket w' !! key = Some data
  /\ (forall k, k <> key -> bucket w' !! k = bucket w !! k)
  /\ (is_Some (bucket w !! key) ->
      dom (bucket w') = dom (bucket w) /\ size (bucket w') = size (bucket w)).
Proof.
  intros Hw Hfile key w'. subst w'.
  rewrite (upload_song_to_b2_ok file_path playlist_name data w Hw Hfile).
  cbn [fst snd bucket set_bucket].
  fold key. split; [reflexivity |]. split; [apply basename_last |].
  split; [apply lookup_insert_eq |].
  split; [intros k Hk; by apply lookup_insert_ne |].
  intros Hold. split.
  - apply elem_of_dom in Hold. rewrite dom_insert_L.
    by apply subseteq_union_1_L, singleton_subseteq_l.
  - destruct Hold as [old Hold].
    rewrite <- (insert_delete_id (bucket w) key old Hold) at 2.
    rewrite <- (insert_delete_eq (bucket w)).
    rewrite !map_size_insert_None; [done | apply lookup_delete_eq ..].
Qed.

Lemma upload_song_to_b2_spec_witness :
  let w := set_bucket {[ py "Mix/a.mp3" := py "old" ]}
             (set_fs {| files := {[ py "/tmp/t/a.mp3" := py "new" ]}; dirs := ∅ |}
                Demo.empty_world) in
  let w' := (upload_song_to_b2 (py "/tmp/t/a.mp3") (py "Mix") w).2 in
  (upload_song_to_b2 (py "/tmp/t/a.mp3") (py "Mix") w).1 = Ok (py "Mix/a.mp3")
  /\ bucket w' !! py "Mix/a.mp3" = Some (py "new")
  /\ size (bucket w') = 1%nat.
Proof.
  intros w w'.
  destruct (upload_song_to_b2_spec (py "/tmp/t/a.mp3") (py "Mix") (py "new") w)
    as (Hkey & _ & Hdata & _ & Hsame).
  - store_works_here.
  - reflexivity.
  - split; [exact Hkey |]. split; [exact Hdata |].
    destruct Hsame as [_ Hsize]; [by eexists | exact Hsize].
Defined.

(** ** C8: the audio fetcher *)

Lemma first_mp3_found (output_path : str) (pre post : list str) (f : str) :
  Forall (fun g => ~ is_mp3 g) pre -> is_mp3 f ->
  first_mp3 output_path (pre ++ f :: post) = Some (os_path_join output_path f).
Proof.
  intros Hpre Hf. induction Hpre as [| g pre Hg Hpre IH]; cbn [first_mp3 app].
  - apply endswith_spec in Hf. by rewrite Hf.
  - destruct (endswith g (py ".mp3")) eqn:Eg; [| exact IH].
    by apply endswith_spec in Eg.
Qed.

Lemma first_mp3_none (output_path : str) (names : list str) :
  Forall (fun g => ~ is_mp3 g) names -> first_mp3 output_path names = None.
Proof.
  induction 1 as [| g names Hg Hnames IH]; cbn [first_mp3]; [done |].
  destruct (endswith g (py ".mp3")) eqn:Eg; [| exact IH].
  by apply endswith_spec in Eg.
Qed.

Lemma download_song_run `{Platform} (song_name output_path : str) (quality : Z)
  (names : list str) (w : World) :
  let call := (ydl_opts output_path quality, [py "ytsearch1:" ++ song_name]) in
  let w' := set_fs (ydl_download call.1 call.2 (fs w)) (log_ydl call w) in
  dirs (fs w') !! output_path = Some names ->
  download_song song_name output_path quality w = (Ok (first_mp3 output_path names), w').
Proof.
  intros call w' Hdir.
  unfold download_song, download, os_listdir, io_bind, effect, io_ret.
  fold call. change (set_fs _ (log_ydl call w)) with w'. by rewrite Hdir.
Qed.

(** C8. [download_song] calls the downloader once, with the one query
    "ytsearch1:" + label. With [names] the entries of the destination
    directory after that call, it returns the path of the first entry
    that ends in ".mp3", which is the directory, a separator if the
    directory does not end with one, and the entry; and it returns [None]
    when no entry ends in ".mp3". *)
Theorem download_song_spec `{Platform} (song_name output_path : str) (quality : Z)
  (names : list str) (w : World) :
  let call := (ydl_opts output_path quality, [py "ytsearch1:" ++ song_name]) in
  let w' := set_fs (ydl_download call.1 call.2 (fs w)) (log_ydl call w) in
  dirs (fs w') !! output_path = Some names ->
  Forall (fun f => SLASH ∉ f) names ->
  exists downloaded,
    download_song song_name output_path quality w = (Ok downloaded, w')
    /\ ydl_calls w' = ydl_calls w ++ [call]
    /\ (forall pre f post,
          names = pre ++ f :: post -> is_mp3 f -> Forall (fun g => ~ is_mp3 g) pre ->
          exists sep, (sep = [] \/ sep = [SLASH])
                      /\ downloaded = Some (output_path ++ sep ++ f))
    /\ (Forall (fun g => ~ is_mp3 g) names -> downloaded = None).
Proof.
  intros call w' Hdir Hnames. exists (first_mp3 output_path names).
  split; [| split; [reflexivity | split]].
  - by apply download_song_run.
  - intros pre f post -> Hf Hpre. rewrite first_mp3_found by done.
    apply Forall_app in Hnames as [_ [Hslash _]%Forall_cons].
    destruct (os_path_join_inside output_path f Hslash) as (sep & Hsep & ->).
    by exists sep.
  - apply first_mp3_none.
Qed.

Lemma download_song_spec_witness :
  exists w',
    download_song (H := Demo.platform) (py "One - A") (py "/tmp/t") 192 Demo.empty_world
    = (Ok (Some (py "/tmp/t/One - A.mp3")), w')
    /\ map snd (ydl_calls w') = [[py "ytsearch1:One - A"]].
Proof.
  destruct (download_song_spec (H := Demo.platform) (py "One - A") (py "/tmp/t") 192
              [py "One - A.mp3"] Demo.empty_world) as (d & Hrun & Hcalls & Hsome & _).
  - reflexivity.
  - compute_done.
  - destruct (Hsome [] (py "One - A.mp3") []) as (sep & Hsep & ->).
    + reflexivity.
    + by exists (py "One - A").
    + constructor.
    + eexists. split; [| by rewrite Hcalls].
      rewrite Hrun. by destruct Hsep as [-> | ->]; vm_compute in Hrun |- *.
Defined.

(** ** C2 and C4: track resolution *)

Lemma resolved_flat_map (pages : list Page) :
  resolved pages = flat_map (fun p => flat_map entry_tracks (entries p)) pages.
Proof.
  unfold resolved.
  assert (forall es : list (option Track),
             map rendered (List.filter kept (omap id es)) = flat_map entry_tracks es)
    as Hes.
  { induction es as [| [t |] es IH]; cbn; [done | | exact IH].
    destruct (kept t); cbn; by rewrite IH. }
  rewrite Hes. induction pages as [| p pages IH]; cbn; [done |].
  by rewrite flat_map_app, IH.
Qed.

Lemma resolved_cons (p : Page) (pages : list Page) :
  resolved (p :: pages) = flat_map entry_tracks (entries p) ++ resolved pages.
Proof. by rewrite !resolved_flat_map. Qed.

Lemma dict_get_some (fields : list (str * json)) (key : str) (v d : json) :
  assoc key fields = Some v -> dict_get (JObj fields) key d = Ok v.
Proof. unfold dict_get. by intros ->. Qed.

Lemma dict_get_none (fields : list (str * json)) (key : str) (d : json) :
  assoc key fields = None -> dict_get (JObj fields) key d = Ok d.
Proof. unfold dict_get. by intros ->. Qed.

Lemma dict_get_str (fields : list (str * json)) (key : string) (s : str) :
  has_str fields key s -> dict_get (JObj fields) (py key) (JStr []) = Ok (JStr s).
Proof. unfold dict_get. by intros [-> | [-> ->]]. Qed.

Lemma artist_names (l : list json) (names : list str) :
  Forall2 artist_json l names ->
  map_result (fun a => dict_get a (py "name") (JStr [])) l = Ok (map JStr names).
Proof.
  induction 1 as [| a name l names (fields & -> & Hname) _ IH]; [done |].
  cbn [map_result]. rewrite (dict_get_str _ _ _ Hname), IH. reflexivity.
Qed.

Lemma join_values_str (sep : str) (names : list str) :
  join_values sep (map JStr names) = Ok (join sep names).
Proof.
  unfold join_values.
  assert (all_str (map JStr names) = Ok names) as ->; [| done].
  induction names as [| name names IH]; [done |]. cbn [map all_str]. by rewrite IH.
Qed.

Lemma kept_truthy (t : Track) :
  truthy (JStr (title t)) && truthy (JArr (map JStr (artists t))) = kept t.
Proof. unfold kept. by destruct (title t), (artists t). Qed.

Lemma add_item_spec `{Platform} (j : json) (e : option Track) (acc : list str) :
  item_json j e -> add_item j acc = Ok (acc ++ entry_tracks e).
Proof.
  intros (fields & -> & He). unfold add_item.
  destruct e as [t |]; cbn [entry_tracks].
  - destruct He as (tj & Htj & tf & -> & Hname & Hartists).
    rewrite (dict_get_some _ _ _ _ Htj). cbn [mbind result_bind].
    destruct tf as [| kv tf].
    { destruct Hname as [[=] | [_ Ht]]. unfold kept. rewrite Ht.
      by rewrite app_nil_r. }
    cbn [truthy]. rewrite (dict_get_str _ _ _ Hname). cbn [mbind result_bind].
    assert (exists l, dict_get (JObj (kv :: tf)) (py "artists") (JArr []) = Ok (JArr l)
                      /\ Forall2 artist_json l (artists t)) as (l & -> & Hl).
    { unfold dict_get. destruct Hartists as [(l & -> & Hl) | [-> ->]]; eauto. }
    cbn [mbind result_bind py_iter]. rewrite (artist_names _ _ Hl).
    cbn [mbind result_bind]. rewrite kept_truthy.
    destruct (kept t); [| by rewrite app_nil_r].
    by rewrite join_values_str.
  - destruct He as [He | He];
      [rewrite (dict_get_none _ _ _ He) | rewrite (dict_get_some _ _ _ _ He)];
      cbn [mbind result_bind truthy]; by rewrite app_nil_r.
Qed.

Lemma add_items_spec `{Platform} (items : list json) (es : list (option Track))
  (acc : list str) :
  Forall2 item_json items es ->
  add_items items acc = Ok (acc ++ flat_map entry_tracks es).
Proof.
  intros Hitems. revert acc.
  induction Hitems as [| j e items es Hj _ IH]; intros acc; cbn [add_items flat_map].
  - by rewrite app_nil_r.
  - rewrite (add_item_spec _ _ _ Hj). cbn [mbind result_bind].
    by rewrite IH, app_assoc.
Qed.

Lemma raise_for_status_ok (r : response) :
  ~ failed r -> raise_for_status r = Ok tt.
Proof.
  unfold failed, raise_for_status. intros Hr.
  destruct (_ && _) eqn:E; [| done]. exfalso. apply Hr. lia.
Qed.

Lemma raise_for_status_failed (r : response) :
  failed r -> raise_for_status r = Raise (HTTPError (status_code r)).
Proof.
  unfold failed, raise_for_status. intros Hr.
  destruct (_ && _) eqn:E; [done | lia].
Qed.

Lemma requested_requested (rqs1 rqs2 : list request) (net1 net2 : list http_outcome)
  (w : World) :
  requested rqs2 net2 (requested rqs1 net1 w) = requested (rqs1 ++ rqs2) net2 w.
Proof. unfold requested; cbn. by rewrite app_assoc. Qed.

Lemma http_request_responds `{Platform} (rq : request) (r : response)
  (net : list http_outcome) (w : World) :
  network w = Responds r :: net ->
  http_request rq w = (Ok r, requested [rq] net w).
Proof. intros Hnet. unfold http_request. by rewrite Hnet. Qed.

Lemma fetch_page_ok `{Platform} (r : response) (p : Page) (u auth : str)
  (acc : list str) (net : list http_outcome) (w : World) :
  page_response r p -> network w = Responds r :: net ->
  fetch_page (JStr u) auth acc w
  = (Ok (acc ++ flat_map entry_tracks (entries p), next_url p),
     requested [get auth u] net w).
Proof.
  intros (Hok & j & Hbody & fields & -> & Hitems & Hnext) Hnet.
  unfold fetch_page, requests_get, io_bind, lift, io_ret.
  rewrite (http_request_responds _ r net w Hnet).
  rewrite (raise_for_status_ok r Hok). unfold response_json. rewrite Hbody.
  assert (exists items, dict_get (JObj fields) (py "items") (JArr []) = Ok (JArr items)
                        /\ Forall2 item_json items (entries p)) as (items & -> & Hl).
  { unfold dict_get. destruct Hitems as [(l & -> & Hl) | [-> ->]]; eauto. }
  cbn [mbind result_bind py_iter]. rewrite (add_items_spec _ _ _ Hl).
  assert (dict_get (JObj fields) (py "next") JNull = Ok (next_url p)) as ->; [| done].
  unfold dict_get, next_url. destruct (next p) as [u' |].
  - by destruct Hnext as [_ ->].
  - by destruct Hnext as [-> | ->].
Qed.

Lemma while_url_unfold `{Platform} (fuel : nat) (u : json) (auth : str)
  (acc : list str) (w : World) :
  while_url fuel u auth acc w
  = if truthy u then
      match fetch_page u auth acc w with
      | (Raise e, w') => (Raise e, w')
      | (Ok (acc', next), w') =>
          match fuel with
          | O => (Raise ConnectionError, w')
          | S fuel' => while_url fuel' next auth acc' w'
          end
      end
    else (Ok acc, w).
Proof. by destruct fuel. Qed.

Lemma truthy_url (u : str) : u <> [] -> truthy (JStr u) = true.
Proof. by destruct u. Qed.

Lemma page_response_next (r : response) (p : Page) (u : str) :
  page_response r p -> next p = Some u -> u <> [].
Proof.
  intros (_ & j & _ & fields & _ & _ & Hnext) Hp. rewrite Hp in Hnext.
  by destruct Hnext.
Qed.

Lemma fetch_page_consumes `{Platform} (u : json) (auth : str) (acc : list str)
  (w w' : World) (r : list str * json) :
  fetch_page u auth acc w = (Ok r, w') ->
  length (network w) = S (length (network w')).
Proof.
  unfold fetch_page, requests_get, http_request, io_bind, io_raise, lift, io_ret.
  destruct u; try discriminate.
  destruct (network w) as [| [resp | e] net]; try discriminate.
  repeat (case_match; try discriminate). by intros [= _ <-].
Qed.

(** The loop never runs out of fuel: from the length of the network on,
    more fuel changes nothing. *)
Lemma while_url_fuel `{Platform} (fuel : nat) (u : json) (auth : str)
  (acc : list str) (w : World) :
  (length (network w) <= fuel)%nat ->
  while_url (S fuel) u auth acc w = while_url fuel u auth acc w.
Proof.
  revert u acc w. induction fuel as [| fuel IH]; intros u acc w Hfuel.
  - rewrite !while_url_unfold. destruct (truthy u); [| done].
    destruct (fetch_page u auth acc w) as [[[acc' nxt] | e] w'] eqn:Hpage; [| done].
    apply fetch_page_consumes in Hpage. lia.
  - rewrite (while_url_unfold (S (S fuel))), (while_url_unfold (S fuel)).
    destruct (truthy u); [| done].
    destruct (fetch_page u auth acc w) as [[[acc' nxt] | e] w'] eqn:Hpage; [| done].
    apply fetch_page_consumes in Hpage. apply IH. lia.
Qed.

(** The loop over a whole pagination: all pages are asked for, in order. *)
Lemma while_url_chain `{Platform} (auth : str) (responses : list response)
  (pages : list Page) :
  Forall2 page_response responses pages -> pagination pages ->
  forall (u : str) (acc : list str) (fuel : nat) (net : list http_outcome) (w : World),
    u <> [] -> network w = map Responds responses ++ net ->
    (length responses <= fuel)%nat ->
    while_url fuel (JStr u) auth acc w
    = (Ok (acc ++ resolved pages),
       requested (map (get auth) (urls_from u pages)) net w).
Proof.
  induction 1 as [| r p responses pages Hr Hrest IH]; [done |].
  intros Hpag u acc fuel net w Hu Hnet Hfuel.
  rewrite while_url_unfold, (truthy_url u Hu).
  rewrite (fetch_page_ok r p u auth acc _ w Hr Hnet).
  destruct fuel as [| fuel]; [cbn in Hfuel; lia |].
  rewrite resolved_cons, app_assoc.
  destruct pages as [| p' pages].
  - cbn in Hpag. unfold next_url. rewrite Hpag.
    apply Forall2_nil_inv_r in Hrest as ->.
    rewrite while_url_unfold. cbn [truthy].
    by rewrite (resolved_flat_map []), app_nil_r.
  - destruct Hpag as [[u' Hu'] Hpag]. unfold next_url. rewrite Hu'.
    rewrite (IH Hpag u' _ fuel net); cbn [length] in *; [| | done | lia].
    + rewrite requested_requested. cbn [urls_from map]. by rewrite Hu'.
    + by eapply page_response_next.
Qed.

Lemma fetch_page_failed `{Platform} (bad : response) (u auth : str)
  (acc : list str) (net : list http_outcome) (w : World) :
  failed bad -> network w = Responds bad :: net ->
  fetch_page (JStr u) auth acc w
  = (Raise (HTTPError (status_code bad)), requested [get auth u] net w).
Proof.
  intros Hbad Hnet. unfold fetch_page, requests_get, io_bind, lift.
  rewrite (http_request_responds _ bad net w Hnet).
  by rewrite (raise_for_status_failed bad Hbad).
Qed.

(** The loop up to a page request that fails. *)
Lemma while_url_fails `{Platform} (auth : str) (bad : response)
  (responses : list response) (pages : list Page) :
  Forall2 page_response responses pages ->
  Forall (fun p => is_Some (next p)) pages -> failed bad ->
  forall (u : str) (acc : list str) (fuel : nat) (net : list http_outcome) (w : World),
    u <> [] -> network w = map Responds responses ++ Responds bad :: net ->
    (length responses <= fuel)%nat ->
    while_url fuel (JStr u) auth acc w
    = (Raise (HTTPError (status_code bad)),
       requested (map (get auth) (urls_from u pages ++ [url_after u pages])) net w).
Proof.
  induction 1 as [| r p responses pages Hr Hrest IH];
    intros Hnext Hbad u acc fuel net w Hu Hnet Hfuel.
  - rewrite while_url_unfold, (truthy_url u Hu).
    by rewrite (fetch_page_failed bad u auth acc net w Hbad Hnet).
  - apply Forall_cons in Hnext as [[u' Hu'] Hnext].
    rewrite while_url_unfold, (truthy_url u Hu).
    rewrite (fetch_page_ok r p u auth acc _ w Hr Hnet).
    destruct fuel as [| fuel]; [cbn in Hfuel; lia |].
    unfold next_url. rewrite Hu'.
    rewrite (IH Hnext Hbad u' _ fuel net); cbn [length] in *; [| | done | lia].
    + rewrite requested_requested. unfold url_after. cbn [urls_from map foldl app].
      by rewrite Hu'.
    + by eapply page_response_next.
Qed.

Lemma get_secret_none (key : str) (w : World) :
  get_secret key None w = (Ok (first_usable key w), looked_up key w).
Proof. rewrite get_secret_first_usable. by destruct (first_usable key w). Qed.

Lemma network_lookups (keys : list str) (w : World) :
  network (lookups keys w) = network w.
Proof. by destruct (lookups_cases keys w) as (env & parsed & ->). Qed.

(** The token exchange, given the response to its request. *)
Lemma get_spotify_access_token_run `{Platform} (r : response)
  (net : list http_outcome) (w : World) :
  network w = Responds r :: net ->
  get_spotify_access_token w
  = (raise_for_status r ≫= (fun _ =>
       response_json r ≫= (fun data => getitem data (py "access_token"))),
     requested [token_request w] net (credentials_read w)).
Proof.
  intros Hnet.
  unfold get_spotify_access_token, io_bind at 1. rewrite get_secret_none.
  unfold io_bind at 1. rewrite get_secret_none.
  change (looked_up _ (looked_up _ w)) with (credentials_read w).
  unfold requests_post, io_bind, lift.
  rewrite (http_request_responds _ r net (credentials_read w))
    by by unfold credentials_read; rewrite network_lookups.
  destruct (raise_for_status r) as [[] | e]; [| done]. cbn [mbind result_bind].
  by destruct (response_json r).
Qed.

Lemma get_spotify_access_token_ok `{Platform} (r : response) (access_token : json)
  (net : list http_outcome) (w : World) :
  token_response r access_token -> network w = Responds r :: net ->
  get_spotify_access_token w
  = (Ok access_token, requested [token_request w] net (credentials_read w)).
Proof.
  intros (Hok & fields & Hbody & Htoken) Hnet.
  rewrite (get_spotify_access_token_run r net w Hnet).
  rewrite (raise_for_status_ok r Hok). unfold response_json. rewrite Hbody.
  cbn [mbind result_bind getitem]. by rewrite Htoken.
Qed.

Lemma tracks_url_nonempty (playlist_id : str) : tracks_url playlist_id <> [].
Proof. discriminate. Qed.

(** C2. Let the token request succeed and the tracks endpoint return a
    sequence of pages, each but the last with a next pointer. Then
    [get_playlist_tracks] asks for every page in order and returns, in
    the order of the API across all pages, exactly the entries that have
    a non-empty name and a non-empty artist list, each rendered as
    "title - artist1, artist2". *)
Theorem get_playlist_tracks_spec `{Platform} (playlist_url playlist_id : str)
  (token : response) (access_token : json) (responses : list response)
  (pages : list Page) (rest : list http_outcome) (w : World) :
  extract_playlist_id playlist_url = Ok playlist_id ->
  token_response token access_token ->
  Forall2 page_response responses pages -> pagination pages ->
  network w = Responds token :: map Responds responses ++ rest ->
  get_playlist_tracks playlist_url w
  = (Ok (resolved pages),
     requested (token_request w
                :: map (get (bearer access_token))
                     (urls_from (tracks_url playlist_id) pages)) rest
       (credentials_read w)).
Proof.
  intros Hid Htoken Hpages Hpag Hnet.
  unfold get_playlist_tracks, io_bind, lift.
  rewrite (get_spotify_access_token_ok token access_token _ w Htoken Hnet), Hid.
  fold (tracks_url playlist_id). fold (bearer access_token).
  rewrite (while_url_chain (bearer access_token) responses pages Hpages Hpag
             (tracks_url playlist_id) [] _ rest); cbn [network requested].
  - by rewrite requested_requested.
  - apply tracks_url_nonempty.
  - reflexivity.
  - rewrite length_app, length_map. lia.
Qed.

(** Concrete JSON against what it says. *)
Ltac json_says :=
  repeat first
    [ reflexivity
    | discriminate
    | progress cbn [map next entries title artists]
    | match goal with
      | |- _ /\ _ => split
      | |- ~ failed _ => unfold failed; cbn; lia
      | |- failed _ => unfold failed; cbn; lia
      | |- is_Some _ => eexists
      | |- Forall2 _ _ _ => constructor
      | |- Forall _ _ => constructor
      | |- exists _, _ => eexists
      | |- has_str _ _ _ => left; reflexivity
      | |- _ \/ _ => (left; json_says; fail) || (right; json_says; fail)
      | |- page_response _ _ => unfold page_response
      | |- page_json _ _ => unfold page_json
      | |- item_json _ _ => unfold item_json
      | |- track_json _ _ => unfold track_json
      | |- artist_json _ _ => unfold artist_json
      | |- token_response _ _ => unfold token_response
      end ].

Lemma three_pages_say_so : Forall2 page_response Demo.three_pages Demo.three_pages_say.
Proof. unfold Demo.three_pages, Demo.three_pages_say, Demo.page, Demo.item, Demo.track. json_says. Qed.

Lemma get_playlist_tracks_spec_witness :
  (get_playlist_tracks (H := Demo.platform) Demo.playlist_url
     (set_network (Responds Demo.token_ok :: map Responds Demo.three_pages)
        Demo.empty_world)).1
  = Ok [py "One - A, B"; py "Three - C"].
Proof.
  rewrite (get_playlist_tracks_spec (H := Demo.platform) Demo.playlist_url
             (py "37i9dQZF1DXcBWIGoYBM5M") Demo.token_ok (JStr (py "tok"))
             Demo.three_pages Demo.three_pages_say []).
  - reflexivity.
  - reflexivity.
  - unfold Demo.token_ok, Demo.token. json_says.
  - exact three_pages_say_so.
  - cbn. json_says.
  - cbn [network set_network]. by rewrite app_nil_r.
Defined.

Lemma get_playlist_tracks_fails `{Platform} (playlist_url playlist_id : str)
  (token bad : response) (access_token : json) (responses : list response)
  (pages : list Page) (rest : list http_outcome) (w : World) :
  extract_playlist_id playlist_url = Ok playlist_id ->
  token_response token access_token ->
  Forall2 page_response responses pages ->
  Forall (fun p => is_Some (next p)) pages -> failed bad ->
  network w = Responds token :: map Responds responses ++ Responds bad :: rest ->
  get_playlist_tracks playlist_url w
  = (Raise (HTTPError (status_code bad)),
     requested (token_request w
                :: map (get (bearer access_token))
                     (urls_from (tracks_url playlist_id) pages
                      ++ [url_after (tracks_url playlist_id) pages])) rest
       (credentials_read w)).
Proof.
  intros Hid Htoken Hpages Hnext Hbad Hnet.
  unfold get_playlist_tracks, io_bind, lift.
  rewrite (get_spotify_access_token_ok token access_token _ w Htoken Hnet), Hid.
  fold (tracks_url playlist_id). fold (bearer access_token).
  rewrite (while_url_fails (bearer access_token) bad responses pages Hpages Hnext Hbad
             (tracks_url playlist_id) [] _ rest); cbn [network requested].
  - by rewrite requested_requested.
  - apply tracks_url_nonempty.
  - reflexivity.
  - rewrite length_app, length_map. lia.
Qed.

(** C4. Let the download button be pressed with inputs that pass the
    checks of the form, let the token request succeed and some page
    request of the resolution fail (after any number of pages that
    succeeded). Then [get_playlist_tracks] raises, and the handler ends
    with one error message: nothing was written to the bucket, the
    downloader was never called and the file system is untouched. *)
Theorem resolution_failure_aborts `{Platform} (playlist_url folder_name : str)
  (quality : Z) (playlist_id : str) (token bad : response) (access_token : json)
  (responses : list response) (pages : list Page) (rest : list http_outcome)
  (w : World) :
  strip folder_name <> [] ->
  contains playlist_url (py "spotify.com/playlist") = true ->
  extract_playlist_id playlist_url = Ok playlist_id ->
  token_response token access_token ->
  Forall2 page_response responses pages ->
  Forall (fun p => is_Some (next p)) pages -> failed bad ->
  network w = Responds token :: map Responds responses ++ Responds bad :: rest ->
  let w' := on_download playlist_url folder_name quality w in
  (get_playlist_tracks playlist_url w).1 = Raise (HTTPError (status_code bad))
  /\ screen w' = screen w ++ [spinner_spotify; error_exception (HTTPError (status_code bad))]
  /\ bucket w' = bucket w
  /\ ydl_calls w' = ydl_calls w
  /\ fs w' = fs w.
Proof.
  intros Hfolder Hurl Hid Htoken Hpages Hnext Hbad Hnet w'.
  pose proof (get_playlist_tracks_fails playlist_url playlist_id token bad
                access_token responses pages rest (show spinner_spotify w)
                Hid Htoken Hpages Hnext Hbad Hnet) as Hfails.
  split.
  { by rewrite (get_playlist_tracks_fails playlist_url playlist_id token bad
                  access_token responses pages rest w Hid Htoken Hpages Hnext Hbad Hnet). }
  assert (w' = show (error_exception (HTTPError (status_code bad)))
                 (get_playlist_tracks playlist_url (show spinner_spotify w)).2) as ->.
  { subst w'. unfold on_download.
    destruct playlist_url as [| c playlist_url]; [discriminate Hurl |].
    destruct (strip folder_name) as [| c' name'] eqn:Hstrip; [done |].
    rewrite Hurl. cbn [negb].
    unfold sync, io_bind at 1, effect at 1. unfold io_bind at 1.
    by rewrite Hfails. }
  rewrite Hfails. unfold credentials_read.
  destruct (lookups_cases [py "SPOTIFY_CLIENT_ID"; py "SPOTIFY_CLIENT_SECRET"]
              (show spinner_spotify w)) as (env & parsed & ->).
  cbn. by rewrite <- app_assoc.
Qed.

Lemma resolution_failure_aborts_witness :
  let w := set_network
             [Responds Demo.token_ok;
              Responds {| status_code := 200;
                          body := Some (Demo.page [Demo.item "One" ["A"]]
                                     (JStr (py "https://api.spotify.com/page2"))) |};
              Responds Demo.server_error] Demo.empty_world in
  let w' := on_download (H := Demo.platform) Demo.playlist_url (py "Mix") 192 w in
  screen w' = [spinner_spotify; error_exception (HTTPError 500)]
  /\ bucket w' = ∅.
Proof.
  intros w w'.
  destruct (resolution_failure_aborts (H := Demo.platform) Demo.playlist_url (py "Mix")
              192 (py "37i9dQZF1DXcBWIGoYBM5M") Demo.token_ok Demo.server_error
              (JStr (py "tok"))
              [ {| status_code := 200;
                   body := Some (Demo.page [Demo.item "One" ["A"]]
                              (JStr (py "https://api.spotify.com/page2"))) |} ]
              [ {| entries := [Demo.track "One" ["A"]];
                   next := Some (py "https://api.spotify.com/page2") |} ]
              [] w) as (_ & Hscreen & Hbucket & _).
  - discriminate.
  - reflexivity.
  - reflexivity.
  - unfold Demo.token_ok, Demo.token. json_says.
  - unfold Demo.page, Demo.item, Demo.track. json_says.
  - json_says.
  - unfold Demo.server_error. json_says.
  - reflexivity.
  - split; [exact Hscreen | exact Hbucket].
Defined.

(** ** C3: the download loop *)
















Lemma demo_keeps_directories : keeps_directories (H := Demo.platform).
Proof.
  intros opts queries f d Hd. cbn. unfold Demo.downloader.
  destruct queries as [| q [| q' queries]]; [done | | done].
  destruct (contains q (py "Missing")); [done |]. cbn [dirs].
  rewrite lookup_insert. by case_decide.
Qed.


(** The partial-fetch scenario of the specification, from the button to
    the bucket: three tracks, the second not found; two objects are
    written and the progress bar ends at 3/3. *)
Example partial_fetch_scenario :
  let w := on_download (H := Demo.platform) Demo.playlist_url (py "My Mix! #1") 192
             (set_network Demo.one_page Demo.empty_world) in
  (map_to_list (bucket w)).*1
  = [py "My Mix 1/Three - D.mp3"; py "My Mix 1/One - A, B.mp3"]
  /\ last (screen w) = Some balloons
  /\ List.filter (fun ev => match ev with progress _ => true | _ => false end) (screen w)
     = [progress 0; progress (1 # 3); progress (2 # 3); progress (3 # 3)].
Proof. by vm_compute. Qed.


(** ** C7: listing a folder *)

Lemma songs_of_spec (contents : list s3_object) (songs : list song) :
  songs_of contents songs
  = Ok (songs ++ map song_of
          (List.filter (fun key => endswith key (py ".mp3")) (map Key contents))).
Proof.
  revert songs. induction contents as [| obj contents IH]; intros songs.
  - cbn. by rewrite app_nil_r.
  - cbn [songs_of map List.filter].
    destruct (endswith (Key obj) (py ".mp3")); [| apply IH].
    rewrite basename_last, IH. cbn [map]. by rewrite <- app_assoc.
Qed.

Lemma list_objects_contents `{Platform} (prefix : str) (w : World) :
  map Key (match Contents (list_objects_page prefix w) with
           | Some l => l
           | None => []
           end)
  = take MaxKeys (List.filter (fun k => startswith k prefix) (backend_order (bucket w))).
Proof.
  unfold list_objects_page. cbn [Contents].
  destruct (take MaxKeys _) as [| k page]; [done |].
  rewrite <- list_fmap_compose. apply map_id.
Qed.

(** The songs [list_songs_in_playlist] returns on a store that works: of
    the first [MaxKeys] keys under the prefix, those that end in ".mp3". *)
Lemma list_songs_in_playlist_run `{Platform} (playlist_name : str) (w : World) :
  store_works w ->
  list_songs_in_playlist playlist_name w
  = (Ok (map song_of
           (List.filter (fun key => endswith key (py ".mp3"))
              (take MaxKeys
                 (List.filter (fun k => startswith k (playlist_name ++ py "/"))
                    (backend_order (bucket w)))))), b2_session w).
Proof.
  intros Hw. unfold list_songs_in_playlist.
  destruct (b2_open_ok
              (fun b2 bucket =>
                 io_bind (list_objects_v2 b2 bucket (playlist_name ++ py "/"))
                   (fun response =>
                      lift (songs_of match Contents response with
                                     | Some l => l
                                     | None => []
                                     end [])))
              w Hw) as (b2 & -> & Hw1 & Hsession).
  set (w1 := looked_up _ _) in *.
  unfold io_bind, list_objects_v2, b2_request, io_bind, ask, lift.
  rewrite send_ok by apply Hw1. rewrite Hsession.
  rewrite songs_of_spec, list_objects_contents.
  by destruct (b2_session_frame w) as (_ & _ & _ & _ & _ & _ & _ & -> & _).
Qed.

(** Whatever the store does, [list_songs_in_playlist] writes nothing, and
    what it returns is taken from the listing. *)
Lemma list_songs_in_playlist_cases `{Platform} (playlist_name : str) (w : World) :
  store_frame w (list_songs_in_playlist playlist_name w).2
  /\ forall songs,
       (list_songs_in_playlist playlist_name w).1 = Ok songs ->
       songs = map song_of
                 (List.filter (fun key => endswith key (py ".mp3"))
                    (take MaxKeys
                       (List.filter (fun k => startswith k (playlist_name ++ py "/"))
                          (backend_order (bucket w))))).
Proof.
  destruct (list_songs_in_playlist playlist_name w) as [r wf] eqn:Hrun.
  cbn [fst snd]. revert Hrun.
  unfold list_songs_in_playlist, io_bind at 1.
  pose proof (get_b2_client_frame w) as Hclient.
  destruct (get_b2_client w) as [[b2 | e] w1]; cbn [snd] in Hclient;
    [| by intros [= <- <-]].
  unfold io_bind at 1. rewrite get_secret_first_usable.
  pose proof (looked_up_frame (py "B2_BUCKET") w1) as Hlookup.
  set (w2 := looked_up (py "B2_BUCKET") w1) in *.
  assert (store_frame w w2) as Hw2 by by eapply store_frame_trans.
  destruct (first_usable (py "B2_BUCKET") w1) as [name |];
    [| by intros [= <- <-]].
  unfold io_bind, list_objects_v2, b2_request, io_bind, ask, lift.
  pose proof (send_frame b2 name w2) as Hsend.
  destruct (send b2 name w2) as [[[] | e] w3]; cbn [snd] in Hsend;
    [| intros [= <- <-]; split; [by eapply store_frame_trans | done]].
  assert (store_frame w w3) as Hw3 by by eapply store_frame_trans.
  rewrite songs_of_spec, list_objects_contents. intros [= <- <-].
  split; [done |]. intros songs [= <-].
  by destruct Hw3 as (_ & _ & _ & _ & _ & _ & _ & -> & _).
Qed.

(** One call lists at most [MaxKeys] songs, whatever the bucket holds. *)
Lemma list_songs_at_most_MaxKeys `{Platform} (playlist_name : str) (w : World)
  (songs : list song) :
  (list_songs_in_playlist playlist_name w).1 = Ok songs ->
  (length songs <= MaxKeys)%nat.
Proof.
  intros Hrun.
  destruct (list_songs_in_playlist_cases playlist_name w) as [_ Hsongs].
  rewrite (Hsongs songs Hrun), length_map.
  etransitivity; [apply List.filter_length_le |]. rewrite length_take. lia.
Qed.

(** Up to [MaxKeys] keys under the prefix, the listing is the folder. *)
Lemma list_songs_small_folder `{Platform} (playlist_name : str) (w : World) :
  store_works w ->
  lists_the_keys ->
  (length (List.filter (fun k => startswith k (playlist_name ++ py "/"))
             (backend_order (bucket w))) <= MaxKeys)%nat ->
  exists songs,
    list_songs_in_playlist playlist_name w = (Ok songs, b2_session w)
    /\ forall s, s ∈ songs <->
         is_Some (bucket w !! song_key s)
         /\ in_folder playlist_name (song_key s) = true
         /\ last (split SLASH (song_key s)) = Some (song_name s).
Proof.
  intros Hw Hkeys Hsmall. eexists.
  split; [by apply list_songs_in_playlist_run |].
  rewrite take_ge by done. intros s. split.
  - intros (key & -> & Hin)%list_elem_of_fmap.
    apply list_elem_of_In, filter_In in Hin as [Hin Hmp3].
    apply filter_In in Hin as [Hin Hpre]. apply list_elem_of_In, Hkeys in Hin.
    unfold in_folder. cbn [song_of song_key song_name].
    by rewrite Hpre, Hmp3, basename_last.
  - intros (Hin & [Hpre Hmp3]%andb_true_iff & Hname).
    apply list_elem_of_fmap. exists (song_key s). split.
    + destruct s as [key name]. cbn [song_key song_name] in *.
      rewrite basename_last in Hname. by injection Hname as <-.
    + apply list_elem_of_In, filter_In. split; [| done].
      apply filter_In. split; [| done]. by apply list_elem_of_In, Hkeys.
Qed.

(** C7 fails on a folder of more than [MaxKeys] songs: the bucket holds
    1001 objects, all under "f/" and ending in ".mp3"; the one call of
    [list_objects_v2] answers with the first 1000 keys, and the object
    "f/999.mp3" has no entry in the list returned. *)
Theorem list_songs_misses_objects :
  let w := set_bucket Demo.many_songs Demo.empty_world in
  exists songs,
    (list_songs_in_playlist (H := Demo.platform) (py "f") w).1 = Ok songs
    /\ size (bucket w) = 1001%nat
    /\ map_Forall (fun key _ => in_folder (py "f") key = true) (bucket w)
    /\ length songs = 1000%nat
    /\ is_Some (bucket w !! py "f/999.mp3")
    /\ py "f/999.mp3" ∉ map song_key songs.
Proof.
  intros w. eexists.
  split; [by rewrite list_songs_in_playlist_run by store_works_here |].
  repeat split; compute_done.
Qed.

Lemma demo_lists_the_keys : lists_the_keys (H := Demo.platform).
Proof.
  intros m k. cbn. rewrite merge_sort_Permutation, list_elem_of_fmap. split.
  - intros ([k' v] & -> & Hkv). apply elem_of_map_to_list in Hkv. by eexists.
  - intros [v Hv]. exists (k, v). split; [done |]. by apply elem_of_map_to_list.
Qed.

(** ** C1: the folder name *)

Lemma lstrip_Forall (P : char -> Prop) (s : str) : Forall P s -> Forall P (lstrip s).
Proof.
  induction 1 as [| c s Hc Hs IH]; cbn; [constructor |].
  destruct (isspace c); [exact IH | by constructor].
Qed.

Lemma strip_Forall (P : char -> Prop) (s : str) : Forall P s -> Forall P (strip s).
Proof.
  intros Hs. unfold strip, rstrip.
  by apply Forall_rev, lstrip_Forall, Forall_rev, lstrip_Forall.
Qed.

(** The sanitized name holds only alphanumeric characters, spaces, '-'
    and '_'. *)
Lemma safe_name_of_keeps `{Platform} (folder_name : str) :
  Forall (fun c => isalnum c = true \/ c ∈ py " -_") (safe_name_of folder_name).
Proof.
  apply strip_Forall, Forall_forall. intros c [_ Hc]%list_elem_of_In%filter_In.
  unfold keeps in Hc. apply orb_true_iff in Hc as [Hc | Hc]; [by left | right].
  change (py " -_") with [32; 45; 95] in *. cbn [contains startswith] in Hc.
  rewrite orb_false_r, !andb_true_r, !orb_true_iff, !N.eqb_eq in Hc.
  destruct Hc as [<- | [<- | <-]]; compute_done.
Qed.

Lemma safe_name_of_example `{Platform} :
  safe_name_of (py "My Mix! #1") = py "My Mix 1" /\ safe_name_of (py "###") = [].
Proof. by split. Qed.

(** C1 fails on the folder name "###": it passes the check of the form
    (it is not blank), its sanitized name is empty, and the handler goes
    on: no error is shown, the track is fetched and uploaded under the
    key "/One - A.mp3", and the run ends with its success message. *)
Theorem empty_safe_name_is_not_rejected :
  let w := set_network Demo.one_track Demo.empty_world in
  let w' := on_download (H := Demo.platform) Demo.playlist_url (py "###") 192 w in
  safe_name_of (H := Demo.platform) (py "###") = []
  /\ screen w' = [spinner_spotify; success_found 1; progress 0; status_empty;
                  status_text 1 1 (py "One - A"); progress (1 # 1);
                  status_empty; success_done []; balloons]
  /\ map_to_list (bucket w') = [(py "/One - A.mp3", py "ytsearch1:One - A")].
Proof. by vm_compute. Qed.

(** * Further properties of the code *)

(** ** The access gate *)

(** X1. [check_access] lets the page be drawn exactly for a session that
    is authenticated already, and then does nothing but look the gate
    secret up; it never ends a session; and a session becomes
    authenticated only through the code of the query string or the code
    submitted in the form being the gate secret. *)
Theorem check_access_sound (v : visit) (w : World) :
  ((check_access v w).1 = Ok Proceed <-> authenticated w = true)
  /\ (authenticated w = true ->
      check_access v w = (Ok Proceed, looked_up (py "ACCESS_CODE") w))
  /\ (authenticated (check_access v w).2 = true ->
      authenticated w = true
      \/ query_code v = Some (gate_secret w)
      \/ (form_submitted v = true /\ code_input v = gate_secret w))
  /\ ((check_access v w).1 = Ok Stop ->
      authenticated (check_access v w).2 = false
      /\ error_denied ∈ screen (check_access v w).2).
Proof.
  unfold check_access, io_bind, ask, effect, io_ret. rewrite gate_secret_found.
  pose proof (authenticated_looked_up (py "ACCESS_CODE") w) as Hsame.
  set (w1 := looked_up (py "ACCESS_CODE") w) in *. rewrite Hsame.
  destruct (authenticated w) eqn:Hauth.
  { cbn. rewrite Hsame. split; [done |]. split; [done |]. split; [by left |]. done. }
  destruct (decide (query_code v = Some (gate_secret w))) as [Hq | Hq].
  { cbn. split; [done |]. split; [done |]. split; [by right; left |]. done. }
  destruct (form_submitted v) eqn:Hform.
  - destruct (decide (Some (code_input v) = Some (gate_secret w))) as [Hc | Hc]; cbn.
    + injection Hc as Hc. split; [done |]. split; [done |].
      split; [by right; right |]. done.
    + rewrite Hsame. split; [done |]. split; [done |]. split; [done |].
      intros _. split; [done |]. set_solver.
  - cbn. rewrite Hsame. split; [done |]. split; [done |]. split; [done |].
    intros _. split; [done |]. set_solver.
Qed.

(** ** The playlist identifier *)

Lemma split_parts_without (c sep : char) (s : str) :
  c ∉ s -> Forall (fun part => c ∉ part) (split sep s).
Proof.
  induction s as [| x s IH]; intros Hs; cbn.
  - repeat constructor. apply not_elem_of_nil.
  - apply not_elem_of_cons in Hs as [Hx Hs]. specialize (IH Hs).
    destruct (x =? sep).
    + constructor; [apply not_elem_of_nil | exact IH].
    + destruct (split sep s) as [| part parts].
      * repeat constructor. rewrite not_elem_of_cons. split; [done | apply not_elem_of_nil].
      * apply Forall_cons in IH as [Hpart Hparts].
        constructor; [| done]. by rewrite not_elem_of_cons.
Qed.

Lemma split_parts_no_sep (sep : char) (s : str) :
  Forall (fun part => sep ∉ part) (split sep s).
Proof.
  induction s as [| x s IH]; cbn.
  - repeat constructor. apply not_elem_of_nil.
  - destruct (N.eqb_spec x sep) as [-> | Hx].
    + constructor; [apply not_elem_of_nil | exact IH].
    + destruct (split sep s) as [| part parts].
      * repeat constructor. rewrite not_elem_of_cons. split; [done | apply not_elem_of_nil].
      * apply Forall_cons in IH as [Hpart Hparts].
        constructor; [| done]. by rewrite not_elem_of_cons.
Qed.

Lemma first_of_length_22_inv (parts : list str) (id : str) :
  first_of_length_22 parts = Ok id -> id ∈ parts /\ length id = 22%nat.
Proof.
  induction parts as [| part parts IH]; cbn; [done |].
  destruct (Nat.eqb_spec (length part) 22) as [Hlen | Hlen].
  - intros [= ->]. split; [left | done].
  - intros [Hin Hid]%IH. split; [by right | done].
Qed.

(** X2. Whatever [extract_playlist_id] returns has exactly 22 characters
    and holds neither a slash nor a question mark. *)
Theorem extract_playlist_id_shape (playlist_url id : str) :
  extract_playlist_id playlist_url = Ok id ->
  length id = 22%nat /\ (SLASH ∉ id) /\ (QMARK ∉ id).
Proof.
  unfold extract_playlist_id.
  pose proof (split_parts_no_sep QMARK (strip playlist_url)) as Hq.
  destruct (split QMARK (strip playlist_url)) as [| path rest]; [done |].
  apply Forall_cons in Hq as [Hq _].
  intros [Hin Hlen]%first_of_length_22_inv. split; [done |]. split.
  - pose proof (split_parts_no_sep SLASH path) as Hs.
    by apply (proj1 (Forall_forall _ _) Hs).
  - pose proof (split_parts_without QMARK SLASH path Hq) as Hs.
    by apply (proj1 (Forall_forall _ _) Hs).
Qed.

Lemma extract_playlist_id_shape_witness :
  length (py "37i9dQZF1DXcBWIGoYBM5M") = 22%nat
  /\ (SLASH ∉ py "37i9dQZF1DXcBWIGoYBM5M") /\ (QMARK ∉ py "37i9dQZF1DXcBWIGoYBM5M").
Proof.
  apply (extract_playlist_id_shape Demo.playlist_url). reflexivity.
Defined.

(** X3. [extract_playlist_id] never raises anything but [ValueError]. *)
Theorem extract_playlist_id_raises (playlist_url : str) (e : exn) :
  extract_playlist_id playlist_url = Raise e ->
  e = ValueError (py "No se pudo extraer el ID de la playlist").
Proof.
  unfold extract_playlist_id.
  pose proof (split_nonempty QMARK (strip playlist_url)).
  destruct (split QMARK (strip playlist_url)) as [| path rest]; [done |].
  generalize (split SLASH path). intros parts.
  induction parts as [| part parts IH]; cbn; [by intros [= <-] |].
  destruct (length part =? 22)%nat; [done | exact IH].
Qed.

Lemma extract_playlist_id_raises_witness :
  exists e,
    extract_playlist_id (py "https://open.spotify.com/playlist/short") = Raise e
    /\ e = ValueError (py "No se pudo extraer el ID de la playlist").
Proof.
  eexists. split; [reflexivity |].
  apply (extract_playlist_id_raises (py "https://open.spotify.com/playlist/short")).
  reflexivity.
Defined.

(** ** Resolution: the order of its steps, and what it leaves alone *)

(** X4. When the token exchange fails, [get_playlist_tracks] raises the
    HTTP error after that one request: the tracks endpoint is never
    asked, whatever the playlist URL. *)
Theorem token_failure_stops_resolution `{Platform} (playlist_url : str)
  (token : response) (rest : list http_outcome) (w : World) :
  failed token -> network w = Responds token :: rest ->
  get_playlist_tracks playlist_url w
  = (Raise (HTTPError (status_code token)),
     requested [token_request w] rest (credentials_read w)).
Proof.
  intros Hfailed Hnet.
  unfold get_playlist_tracks, io_bind.
  rewrite (get_spotify_access_token_run token rest w Hnet).
  by rewrite (raise_for_status_failed token Hfailed).
Qed.

Lemma token_failure_stops_resolution_witness :
  let w := set_network [Responds {| status_code := 401; body := None |};
                        Demo.ok (Demo.page [] JNull)] Demo.empty_world in
  (get_playlist_tracks (H := Demo.platform) Demo.playlist_url w).1 = Raise (HTTPError 401)
  /\ length (sent (get_playlist_tracks (H := Demo.platform) Demo.playlist_url w).2) = 1%nat.
Proof.
  intros w.
  rewrite (token_failure_stops_resolution (H := Demo.platform) Demo.playlist_url
             {| status_code := 401; body := None |}
             [Demo.ok (Demo.page [] JNull)] w).
  - by split.
  - unfold failed; cbn; lia.
  - reflexivity.
Defined.

(** X5. The playlist URL is looked at only after the token exchange: for
    a URL without an identifier the token is still requested, and then
    the [ValueError] is raised with no request to the tracks endpoint. *)
Theorem invalid_url_costs_a_token `{Platform} (playlist_url : str) (e : exn)
  (token : response) (access_token : json) (rest : list http_outcome) (w : World) :
  extract_playlist_id playlist_url = Raise e ->
  token_response token access_token -> network w = Responds token :: rest ->
  get_playlist_tracks playlist_url w
  = (Raise e, requested [token_request w] rest (credentials_read w)).
Proof.
  intros Hid Htoken Hnet. unfold get_playlist_tracks, io_bind, lift.
  by rewrite (get_spotify_access_token_ok token access_token _ w Htoken Hnet), Hid.
Qed.

Lemma invalid_url_costs_a_token_witness :
  let w := set_network [Responds Demo.token_ok] Demo.empty_world in
  exists e w',
    get_playlist_tracks (H := Demo.platform)
      (py "https://open.spotify.com/playlist/short") w = (Raise e, w')
    /\ length (sent w') = 1%nat /\ network w' = [].
Proof.
  intros w. eexists _, _. split.
  - apply (invalid_url_costs_a_token (H := Demo.platform)
             (py "https://open.spotify.com/playlist/short") _
             Demo.token_ok (JStr (py "tok")) [] w).
    + reflexivity.
    + unfold Demo.token_ok, Demo.token. json_says.
    + reflexivity.
  - by split.
Defined.

(** X6. A token response that succeeds without the key "access_token" in
    its JSON object raises [KeyError] for that key, and one whose body is
    not JSON raises [JSONDecodeError]; either way after the one request. *)
Theorem token_without_access_token `{Platform} (token : response)
  (rest : list http_outcome) (w : World) :
  ~ failed token -> network w = Responds token :: rest ->
  (forall fields,
      body token = Some (JObj fields) -> assoc (py "access_token") fields = None ->
      get_spotify_access_token w
      = (Raise (KeyError (py "access_token")),
         requested [token_request w] rest (credentials_read w)))
  /\ (body token = None ->
      get_spotify_access_token w
      = (Raise JSONDecodeError, requested [token_request w] rest (credentials_read w))).
Proof.
  intros Hok Hnet.
  rewrite (get_spotify_access_token_run token rest w Hnet).
  rewrite (raise_for_status_ok token Hok). cbn [mbind result_bind].
  split.
  - intros fields Hbody Hkey. unfold response_json. rewrite Hbody.
    cbn [mbind result_bind getitem]. by rewrite Hkey.
  - intros Hbody. unfold response_json. by rewrite Hbody.
Qed.

Lemma token_without_access_token_witness :
  let w := set_network [Demo.ok (JObj [(py "error", JStr (py "invalid_client"))])]
             Demo.empty_world in
  (get_spotify_access_token (H := Demo.platform) w).1
  = Raise (KeyError (py "access_token")).
Proof.
  intros w.
  destruct (token_without_access_token (H := Demo.platform)
              {| status_code := 200;
                 body := Some (JObj [(py "error", JStr (py "invalid_client"))]) |}
              [] w) as [Hkey _].
  - unfold failed; cbn; lia.
  - reflexivity.
  - by rewrite (Hkey [(py "error", JStr (py "invalid_client"))]).
Defined.

Lemma only_requests_refl (w : World) : only_requests w w.
Proof.
  unfold only_requests. split; [by left |]. repeat split; try done.
  - exists []. by rewrite app_nil_r.
  - by exists [].
Qed.

Lemma load_secrets_same (w w' : World) :
  environ w' = environ w -> st_secrets w' = st_secrets w ->
  secrets_parsed w' = secrets_parsed w ->
  environ (load_secrets w') = environ (load_secrets w)
  /\ secrets_parsed (load_secrets w') = secrets_parsed (load_secrets w).
Proof.
  unfold load_secrets. intros Henv Hsecrets Hparsed. rewrite Hsecrets.
  destruct (st_secrets w); [| by split].
  rewrite Hparsed. destruct (secrets_parsed w) eqn:Hw; [split; congruence |].
  cbn. by rewrite Henv.
Qed.

Lemma load_secrets_loaded (w w' : World) :
  environ w' = environ (load_secrets w) -> st_secrets w' = st_secrets w ->
  secrets_parsed w' = secrets_parsed (load_secrets w) ->
  environ (load_secrets w') = environ (load_secrets w)
  /\ secrets_parsed (load_secrets w') = secrets_parsed (load_secrets w).
Proof.
  intros Henv Hsecrets Hparsed.
  destruct (load_secrets_same (load_secrets w) w') as [E P]; try done.
  { rewrite Hsecrets. unfold load_secrets.
    destruct (st_secrets w) eqn:Hw; [| done].
    destruct (secrets_parsed w); [done | by cbn]. }
  by rewrite load_secrets_load_secrets in E, P.
Qed.

Lemma only_requests_trans (w1 w2 w3 : World) :
  only_requests w1 w2 -> only_requests w2 w3 -> only_requests w1 w3.
Proof.
  unfold only_requests.
  intros (E0 & E1 & E2 & E3 & E4 & E5 & E6 & E7 & E8 & E9 & [r1 Hr1] & [u1 Hu1])
         (F0 & F1 & F2 & F3 & F4 & F5 & F6 & F7 & F8 & F9 & [r2 Hr2] & [u2 Hu2]).
  split; [| repeat split; try congruence].
  - destruct E0 as [[Ee Ep] | [Ee Ep]], F0 as [[Fe Fp] | [Fe Fp]].
    + left. split; congruence.
    + right. destruct (load_secrets_same w1 w2) as [Le Lp]; try done.
      split; congruence.
    + right. split; congruence.
    + right. destruct (load_secrets_loaded w1 w2) as [Le Lp]; try done.
      split; congruence.
  - exists (r1 ++ r2). by rewrite Hr2, Hr1, app_assoc.
  - exists (u1 ++ u2). by rewrite Hu1, Hu2, app_assoc.
Qed.

Lemma looked_up_only_requests (key : str) (w : World) :
  only_requests w (looked_up key w).
Proof.
  assert (secrets_read w (looked_up key w)) as Hread.
  { unfold looked_up. destruct (env_match key w); [by left | by right]. }
  split; [exact Hread |].
  destruct (looked_up_cases key w) as (env & parsed & ->). cbn.
  repeat split; try done.
  - exists []. by rewrite app_nil_r.
  - by exists [].
Qed.

Lemma credentials_read_only_requests (w : World) :
  only_requests w (credentials_read w).
Proof.
  unfold credentials_read. cbn [lookups foldl].
  eapply only_requests_trans; apply looked_up_only_requests.
Qed.

Lemma http_request_frame `{Platform} (rq : request) (w : World) :
  only_requests w (http_request rq w).2.
Proof.
  unfold http_request, only_requests.
  destruct (network w) as [| [r | e] net] eqn:Hnet; cbn;
    (split; [by left |]);
    repeat split; try done; try (by exists [rq]);
    try (by exists []); by eexists [_].
Qed.

Lemma fetch_page_frame `{Platform} (u : json) (auth : str) (acc : list str)
  (w : World) :
  only_requests w (fetch_page u auth acc w).2.
Proof.
  assert ((fetch_page u auth acc w).2 = (requests_get u auth w).2) as ->.
  { unfold fetch_page, io_bind, lift, io_ret.
    destruct (requests_get u auth w) as [[r | e] w']; [| done]. cbn.
    repeat (case_match; try done). }
  unfold requests_get. destruct u; try apply only_requests_refl.
  apply http_request_frame.
Qed.

Lemma while_url_frame `{Platform} (fuel : nat) (u : json) (auth : str)
  (acc : list str) (w : World) :
  only_requests w (while_url fuel u auth acc w).2.
Proof.
  revert u acc w. induction fuel as [| fuel IH]; intros u acc w;
    rewrite while_url_unfold; (destruct (truthy u); [| apply only_requests_refl]);
    pose proof (fetch_page_frame u auth acc w) as Hpage;
    destruct (fetch_page u auth acc w) as [[[acc' nxt] | e] w']; try done.
  eapply only_requests_trans; [exact Hpage | apply IH].
Qed.

Lemma get_spotify_access_token_frame `{Platform} (w : World) :
  only_requests w (get_spotify_access_token w).2.
Proof.
  assert ((get_spotify_access_token w).2
          = (requests_post (py "https://accounts.spotify.com/api/token")
               (authorization (token_request w)) (credentials_read w)).2) as ->.
  { unfold get_spotify_access_token, io_bind at 1. rewrite get_secret_none.
    unfold io_bind at 1. rewrite get_secret_none.
    change (looked_up _ (looked_up _ w)) with (credentials_read w).
    unfold io_bind, lift, token_request; cbn [authorization].
    destruct (requests_post _ _ (credentials_read w)) as [[r | e] w']; [| done].
    cbn. repeat (case_match; try done). }
  eapply only_requests_trans;
    [apply credentials_read_only_requests | apply http_request_frame].
Qed.

Lemma get_playlist_tracks_frame `{Platform} (playlist_url : str) (w : World) :
  only_requests w (get_playlist_tracks playlist_url w).2.
Proof.
  unfold get_playlist_tracks, io_bind.
  pose proof (get_spotify_access_token_frame w) as Htoken.
  destruct (get_spotify_access_token w) as [[access_token | e] w1]; [| done].
  unfold lift. destruct (extract_playlist_id playlist_url) as [id | e]; [| done].
  eapply only_requests_trans; [exact Htoken | apply while_url_frame].
Qed.

(** X7. Whatever the URL and whatever the network answers,
    [get_playlist_tracks] only sends requests and looks its credentials
    up: the bucket, the store, the local files, the page, the downloader
    and the secrets files are as before, and the environment is as
    before or has taken in the values of the local secrets store. *)
Theorem resolution_only_requests `{Platform} (playlist_url : str) (w : World) :
  only_requests w (get_playlist_tracks playlist_url w).2.
Proof.
  pose proof (get_playlist_tracks_frame playlist_url w) as Hframe.
  unfold only_requests in *. tauto.
Qed.

(** ** The download tab: where it writes *)

Lemma writes_under_same (folder : str) (w w' : World) :
  bucket w' = bucket w -> writes_under folder w w'.
Proof. intros Hb key. rewrite Hb. by split. Qed.

Lemma writes_under_trans (folder : str) (w1 w2 w3 : World) :
  writes_under folder w1 w2 -> writes_under folder w2 w3 ->
  writes_under folder w1 w3.
Proof.
  intros H12 H23 key. destruct (H12 key) as [K12 D12], (H23 key) as [K23 D23].
  split; [auto |]. intros Hdiff.
  destruct (decide (bucket w2 !! key = bucket w1 !! key)) as [E | E]; [| auto].
  apply D23. by rewrite E.
Qed.

Lemma writes_under_insert (folder name : str) (data : bytes) (w w' : World) :
  bucket w' = <[folder ++ py "/" ++ name := data]> (bucket w) ->
  writes_under folder w w'.
Proof.
  intros Hb key. rewrite Hb.
  destruct (decide (folder ++ py "/" ++ name = key)) as [<- | Hne].
  - rewrite lookup_insert_eq. split; [by eexists |]. intros _.
    apply startswith_spec. exists name. by rewrite <- app_assoc.
  - rewrite lookup_insert_ne by done. by split.
Qed.

Lemma io_bind_writes_under {A B : Type} (folder : str) (m : io A) (k : A -> io B) :
  (forall w, writes_under folder w (m w).2) ->
  (forall a w, writes_under folder w (k a w).2) ->
  forall w, writes_under folder w (io_bind m k w).2.
Proof.
  intros Hm Hk w. unfold io_bind. specialize (Hm w).
  destruct (m w) as [[a | e] w1]; [| done].
  eapply writes_under_trans; [exact Hm | apply Hk].
Qed.

Lemma download_song_bucket `{Platform} (song output_path : str) (quality : Z)
  (w : World) :
  bucket (download_song song output_path quality w).2 = bucket w.
Proof.
  unfold download_song, download, os_listdir, io_bind, effect, io_ret.
  by destruct (dirs _ !! output_path).
Qed.

Lemma upload_song_to_b2_writes_under (path folder : str) (w : World) :
  writes_under folder w (upload_song_to_b2 path folder w).2.
Proof.
  destruct (upload_song_to_b2_cases path folder w)
    as (w1 & Hframe & [-> | [data ->]]);
    destruct Hframe as (_ & _ & _ & _ & _ & _ & _ & Hbucket & _).
  - by apply writes_under_same.
  - by eapply writes_under_insert.
Qed.

Lemma TemporaryDirectory_writes_under `{Platform} {A : Type} (folder : str)
  (block : str -> io A) :
  (forall tmp_dir w, writes_under folder w (block tmp_dir w).2) ->
  forall w, writes_under folder w (TemporaryDirectory block w).2.
Proof.
  intros Hblock w. unfold TemporaryDirectory.
  specialize (Hblock (mkdtemp (fs w)) (set_fs (make_dir (mkdtemp (fs w)) (fs w)) w)).
  destruct (block _ _) as [r w1]. intros key. destruct (Hblock key). by split.
Qed.

Lemma download_one_writes_under `{Platform} (safe_name : str) (quality : Z)
  (n i : nat) (song : str) (w : World) :
  writes_under safe_name w (download_one safe_name quality n i song w).2.
Proof.
  unfold download_one. revert w.
  apply io_bind_writes_under; [intros w; by apply writes_under_same |].
  intros _. apply io_bind_writes_under;
    [| intros _ w; by apply writes_under_same].
  apply TemporaryDirectory_writes_under. intros tmp_dir.
  apply io_bind_writes_under.
  - intros w. apply writes_under_same, download_song_bucket.
  - intros [[| c p] |]; try (intros w; by apply writes_under_same).
    apply io_bind_writes_under; [intros w; by apply writes_under_same |].
    intros [|]; [| intros w; by apply writes_under_same].
    apply io_bind_writes_under; [apply upload_song_to_b2_writes_under |].
    intros _ w. by apply writes_under_same.
Qed.

Lemma download_all_writes_under `{Platform} (safe_name : str) (quality : Z)
  (n : nat) (canciones : list str) (i : nat) (w : World) :
  writes_under safe_name w (download_all safe_name quality n i canciones w).2.
Proof.
  revert i w. induction canciones as [| song rest IH]; intros i w.
  - by apply writes_under_same.
  - cbn [download_all]. revert w. apply io_bind_writes_under.
    + apply download_one_writes_under.
    + intros _ w. apply IH.
Qed.

(** X8. Whatever the inputs, the network and the downloader, a click on
    the download button deletes no object of the bucket, and every object
    it adds or changes has a key under [safe_name/]: all tracks of a run
    land in the one folder. *)
Theorem on_download_writes_under `{Platform} (playlist_url folder_name : str)
  (quality : Z) (w : World) :
  writes_under (safe_name_of folder_name) w
    (on_download playlist_url folder_name quality w).
Proof.
  unfold on_download.
  destruct playlist_url as [| c url]; [by apply writes_under_same |].
  destruct (strip folder_name) as [| c' name]; [by apply writes_under_same |].
  destruct (negb _); [by apply writes_under_same |].
  assert (forall w0, writes_under (safe_name_of folder_name) w0
                       (sync (c :: url) folder_name quality w0).2) as Hsync.
  { unfold sync.
    apply io_bind_writes_under; [intros w0; by apply writes_under_same |].
    intros _. apply io_bind_writes_under.
    { intros w0. apply writes_under_same.
      by destruct (get_playlist_tracks_frame (c :: url) w0)
        as (_ & _ & _ & _ & _ & _ & -> & _). }
    intros canciones.
    repeat (apply io_bind_writes_under;
            [intros w0; by apply writes_under_same | intros _]).
    apply io_bind_writes_under; [intros w0; apply download_all_writes_under |].
    intros _.
    repeat (apply io_bind_writes_under;
            [intros w0; by apply writes_under_same | intros _]).
    intros w0. by apply writes_under_same. }
  specialize (Hsync w). destruct (sync _ _ _ w) as [[u | e] w1]; [done |].
  eapply writes_under_trans; [exact Hsync | by apply writes_under_same].
Qed.

(** ** The download tab: what it shows and what it leaves on disk *)



Lemma reports_in_range (n i : nat) (canciones : list str) (q : Q) :
  (i + length canciones <= n)%nat ->
  progress q ∈ reports n i canciones -> (0 < q)%Q /\ (q <= 1)%Q.
Proof.
  revert i. induction canciones as [| song rest IH]; intros i Hn Hq; cbn in *.
  - by apply elem_of_nil in Hq.
  - apply elem_of_cons in Hq as [[=] | Hq].
    apply elem_of_cons in Hq as [[= ->] | Hq]; [| apply (IH (S i)); [lia | done]].
    unfold fraction, Qlt, Qle. cbn [Qnum Qden].
    rewrite <- (positive_nat_Z (Pos.of_nat n)), Nat2Pos.id by lia. lia.
Qed.

Lemma same_screen_trans (w1 w2 w3 : World) :
  same_screen w1 w2 -> same_screen w2 w3 -> same_screen w1 w3.
Proof. unfold same_screen. congruence. Qed.

Lemma download_song_screen `{Platform} (song output_path : str) (quality : Z)
  (w : World) :
  same_screen w (download_song song output_path quality w).2.
Proof.
  unfold same_screen, download_song, download, os_listdir, io_bind, effect, io_ret.
  by destruct (dirs _ !! output_path).
Qed.

Lemma upload_song_to_b2_screen (path folder : str) (w : World) :
  same_screen w (upload_song_to_b2 path folder w).2.
Proof.
  unfold same_screen.
  destruct (upload_song_to_b2_cases path folder w)
    as (w1 & Hframe & [-> | [data ->]]);
    by destruct Hframe as (_ & _ & _ & _ & _ & _ & _ & _ & Hscreen & _).
Qed.

Lemma TemporaryDirectory_same_screen `{Platform} {A : Type} (block : str -> io A) :
  (forall tmp_dir w, same_screen w (block tmp_dir w).2) ->
  forall w, same_screen w (TemporaryDirectory block w).2.
Proof.
  intros Hblock w. unfold TemporaryDirectory.
  specialize (Hblock (mkdtemp (fs w)) (set_fs (make_dir (mkdtemp (fs w)) (fs w)) w)).
  destruct (block _ _) as [r w1]. exact Hblock.
Qed.

(** What a turn shows, however it ends: its status line, and its report
    unless an exception ended it. *)
Lemma download_one_shows `{Platform} (safe_name : str) (quality : Z) (n i : nat)
  (song : str) (w : World) :
  exists shown,
    screen (download_one safe_name quality n i song w).2 = screen w ++ shown
    /\ (shown = [status_text (i + 1) n song]
        \/ shown = [status_text (i + 1) n song; progress (fraction i n)]).
Proof.
  unfold download_one, io_bind at 1, effect at 1. unfold io_bind at 1.
  match goal with
  | |- context [TemporaryDirectory (A := unit) ?b ?w0] =>
      assert (same_screen w0 (TemporaryDirectory b w0).2) as Hblock;
      [| destruct (TemporaryDirectory b w0) as [[[] | e] w1]]
  end.
  - apply TemporaryDirectory_same_screen. intros tmp_dir. cbv beta.
    apply (io_bind_frame same_screen);
      [exact same_screen_trans | intros w1; apply download_song_screen |].
    intros [[| c p] |] w1; try reflexivity.
    revert w1. apply (io_bind_frame same_screen);
      [exact same_screen_trans | intros w1; reflexivity |].
    intros [|] w1; [| reflexivity]. revert w1.
    apply (io_bind_frame same_screen);
      [exact same_screen_trans | apply upload_song_to_b2_screen |].
    intros _ w1. reflexivity.
  - unfold same_screen in Hblock. cbn [snd] in Hblock. eexists. split; [| by right].
    cbn. rewrite Hblock. cbn. by rewrite <- app_assoc.
  - unfold same_screen in Hblock. cbn [snd] in Hblock. eexists. split; [| by left].
    cbn. by rewrite Hblock.
Qed.

(** What the loop shows, however it ends: reports of its tracks. *)
Lemma download_all_shows `{Platform} (safe_name : str) (quality : Z) (n : nat)
  (canciones : list str) (i : nat) (w : World) :
  exists shown,
    screen (download_all safe_name quality n i canciones w).2 = screen w ++ shown
    /\ forall ev, ev ∈ shown -> ev ∈ reports n i canciones.
Proof.
  revert i w. induction canciones as [| song rest IH]; intros i w.
  - exists []. cbn. by rewrite app_nil_r.
  - cbn [download_all reports]. unfold io_bind.
    destruct (download_one_shows safe_name quality n i song w)
      as (shown1 & Hscreen1 & Hshown1).
    assert (forall ev, ev ∈ shown1 ->
              ev ∈ [status_text (i + 1) n song; progress (fraction i n)]) as Hin1.
    { intros ev Hev. destruct Hshown1 as [-> | ->]; [| done].
      apply list_elem_of_singleton in Hev as ->. by left. }
    destruct (download_one safe_name quality n i song w) as [[[] | e] w1];
      cbn [snd] in *.
    + destruct (IH (S i) w1) as (shown & Hscreen & Hshown).
      exists (shown1 ++ shown). split; [by rewrite Hscreen, Hscreen1, app_assoc |].
      intros ev [Hev | Hev]%elem_of_app.
      * apply Hin1 in Hev.
        apply elem_of_cons in Hev as [-> | Hev]; [by left |].
        apply list_elem_of_singleton in Hev as ->. right. by left.
      * right. right. by apply Hshown.
    + exists shown1. split; [done |]. intros ev Hev. apply Hin1 in Hev.
      apply elem_of_cons in Hev as [-> | Hev]; [by left |].
      apply list_elem_of_singleton in Hev as ->. right. by left.
Qed.

(** X10. Every value the loop hands to the progress bar lies in (0, 1]:
    for a downloader that keeps directories, a report shown by the loop
    over a track list is either one that was on the page before or a
    fraction above 0 and at most 1. *)
Theorem progress_reports_in_range `{Platform} (safe_name : str) (quality : Z)
  (canciones : list str) (w : World) (q : Q) :
  keeps_directories ->
  progress q ∈ screen (download_all safe_name quality (length canciones) 0
                         canciones w).2 ->
  progress q ∈ screen w \/ ((0 < q)%Q /\ (q <= 1)%Q).
Proof.
  intros Hkeep.
  destruct (download_all_shows safe_name quality (length canciones) canciones
              0%nat w) as (shown & -> & Hshown).
  intros [Hq | Hq]%elem_of_app; [by left | right].
  by apply (reports_in_range (length canciones) 0 canciones), Hshown.
Qed.

Lemma progress_reports_in_range_witness :
  (0 < 2 # 3)%Q /\ (2 # 3 <= 1)%Q.
Proof.
  destruct (progress_reports_in_range (H := Demo.platform) (py "Mix") 192
              [py "One - A, B"; py "Missing - C"; py "Three - D"] Demo.empty_world
              (2 # 3) demo_keeps_directories) as [Hold | Hrange].
  - change (progress (2 # 3)
            ∈ [status_text 1 3 (py "One - A, B"); progress (1 # 3);
               status_text 2 3 (py "Missing - C"); progress (2 # 3);
               status_text 3 3 (py "Three - D"); progress (3 # 3)]).
    rewrite !elem_of_cons. auto 10.
  - cbn in Hold. by apply elem_of_nil in Hold.
  - exact Hrange.
Defined.

Lemma TemporaryDirectory_cleans_up `{Platform} {A : Type} (block : str -> io A)
  (w : World) :
  let tmp_dir := mkdtemp (fs w) in
  let w' := (TemporaryDirectory block w).2 in
  dirs (fs w') !! tmp_dir = None
  /\ forall path, startswith path (tmp_dir ++ py "/") = true ->
                  files (fs w') !! path = None.
Proof.
  intros tmp_dir w'. subst w'. unfold TemporaryDirectory. fold tmp_dir.
  destruct (block tmp_dir _) as [r w1]. cbn [snd fs set_fs rmtree dirs files].
  split; [apply lookup_delete_eq |]. intros path Hpath.
  apply map_lookup_filter_None. right. intros data _ Hno. apply Hno.
  cbn [fst]. by rewrite Hpath.
Qed.

(** X11. A turn of the loop leaves nothing on disk: however the fetch
    and the upload end, the temporary directory of the turn is removed
    and no file remains under it. *)
Theorem download_one_cleans_up `{Platform} (safe_name : str) (quality : Z)
  (n i : nat) (song : str) (w : World) :
  let tmp_dir := mkdtemp (fs w) in
  let w' := (download_one safe_name quality n i song w).2 in
  dirs (fs w') !! tmp_dir = None
  /\ forall path, startswith path (tmp_dir ++ py "/") = true ->
                  files (fs w') !! path = None.
Proof.
  intros tmp_dir w'.
  assert (exists block : str -> io unit,
             fs w' = fs (TemporaryDirectory block
                           (show (status_text (i + 1) n song) w)).2) as [block Hfs].
  { subst w'. unfold download_one, io_bind at 1, effect at 1. unfold io_bind at 1.
    match goal with
    | |- context [TemporaryDirectory (A := unit) ?b ?w0] =>
        exists b; by destruct (TemporaryDirectory b w0) as [[u | e] w1]
    end. }
  rewrite Hfs.
  apply (TemporaryDirectory_cleans_up block (show (status_text (i + 1) n song) w)).
Qed.

(** ** The folder name *)

Lemma lstrip_lstrip (s : str) : lstrip (lstrip s) = lstrip s.
Proof.
  induction s as [| c s IH]; [done |]. cbn.
  destruct (isspace c) eqn:Hc; [exact IH |]. cbn. by rewrite Hc.
Qed.

Lemma lstrip_starts_clean (s : str) : starts_clean (lstrip s).
Proof.
  induction s as [| c s IH]; [done |]. cbn.
  by destruct (isspace c) eqn:Hc.
Qed.

Lemma lstrip_id (s : str) : starts_clean s -> lstrip s = s.
Proof. destruct s as [| c s]; [done |]. cbn. by intros ->. Qed.

Lemma lstrip_suffix (s : str) : exists pre, s = pre ++ lstrip s.
Proof.
  induction s as [| c s [pre IH]]; [by exists [] |]. cbn.
  destruct (isspace c); [| by exists []].
  exists (c :: pre). cbn. by rewrite <- IH.
Qed.

Lemma starts_clean_prefix (a b : str) :
  starts_clean (a ++ b) -> a <> [] -> starts_clean a.
Proof. by destruct a. Qed.

Lemma strip_starts_clean (s : str) : starts_clean (strip s).
Proof.
  unfold strip, rstrip.
  destruct (lstrip_suffix (rev (lstrip s))) as [pre Hpre].
  destruct (lstrip (rev (lstrip s))) as [| c z] eqn:Hz; [done |].
  apply (starts_clean_prefix _ (rev pre)).
  - rewrite <- rev_app_distr, <- Hpre, rev_involutive. apply lstrip_starts_clean.
  - cbn. by destruct (rev z).
Qed.

Lemma strip_strip (s : str) : strip (strip s) = strip s.
Proof.
  unfold strip at 1. rewrite (lstrip_id (strip s)) by apply strip_starts_clean.
  unfold strip, rstrip. by rewrite rev_involutive, lstrip_lstrip.
Qed.

Lemma filter_all {A : Type} (f : A -> bool) (l : list A) :
  Forall (fun a => f a = true) l -> List.filter f l = l.
Proof. induction 1 as [| a l Ha _ IH]; cbn; [done |]. by rewrite Ha, IH. Qed.

Lemma safe_name_of_all_kept `{Platform} (folder_name : str) :
  Forall (fun c => keeps c = true) (safe_name_of folder_name).
Proof.
  apply strip_Forall, Forall_forall. by intros c [_ Hc]%list_elem_of_In%filter_In.
Qed.

(** X12. The sanitized folder name holds no slash, has no white space
    at either end, and sanitizing it again changes nothing. *)
Theorem safe_name_of_clean `{Platform} (folder_name : str) :
  let safe_name := safe_name_of folder_name in
  (SLASH ∉ safe_name)
  /\ strip safe_name = safe_name
  /\ safe_name_of safe_name = safe_name.
Proof.
  intros safe_name. subst safe_name.
  pose proof (safe_name_of_all_kept folder_name) as Hkept.
  assert (strip (safe_name_of folder_name) = safe_name_of folder_name) as Hstrip
    by apply strip_strip.
  split; [| split; [exact Hstrip |]].
  - intros Hin. apply (proj1 (Forall_forall _ _) Hkept) in Hin. discriminate Hin.
  - unfold safe_name_of at 1. by rewrite (filter_all keeps _ Hkept).
Qed.

(** ** The bucket: listing and reading *)

(** X13. [list_songs_in_playlist] writes nothing: however the call
    ends, the bucket, the local files and the page are as before. On a
    store that works it returns a list. And a list it returns holds at
    most [MaxKeys] entries, each a key the service lists, under
    [playlist_name/] and ending in ".mp3", with the part of the key after
    its last slash as name. *)
Theorem list_songs_sound `{Platform} (playlist_name : str) (w : World) :
  store_frame w (list_songs_in_playlist playlist_name w).2
  /\ (store_works w ->
      exists songs, (list_songs_in_playlist playlist_name w).1 = Ok songs)
  /\ forall songs,
       (list_songs_in_playlist playlist_name w).1 = Ok songs ->
       (length songs <= MaxKeys)%nat
       /\ Forall (fun s => song_key s ∈ backend_order (bucket w)
                           /\ in_folder playlist_name (song_key s) = true
                           /\ song_name s = basename (song_key s)
                           /\ last (split SLASH (song_key s)) = Some (song_name s))
            songs.
Proof.
  destruct (list_songs_in_playlist_cases playlist_name w) as [Hframe Hsongs].
  split; [exact Hframe |]. split.
  { intros Hw. rewrite (list_songs_in_playlist_run playlist_name w Hw). by eexists. }
  intros songs Hrun. rewrite (Hsongs songs Hrun). split.
  - rewrite length_map.
    etransitivity; [apply List.filter_length_le |]. rewrite length_take. lia.
  - apply Forall_forall. intros s (key & -> & Hin)%list_elem_of_fmap.
    apply list_elem_of_In, filter_In in Hin as [Hin Hmp3].
    apply list_elem_of_In, elem_of_take in Hin as (j & Hin & _).
    apply list_elem_of_lookup_2, list_elem_of_In, filter_In in Hin as [Hin Hpre].
    cbn [song_of song_key song_name]. unfold in_folder.
    rewrite Hpre, Hmp3, basename_last. by apply list_elem_of_In in Hin.
Qed.

(** X14. On a store that works, for a folder of at most [MaxKeys] keys
    and a service that lists the keys of the bucket,
    [list_songs_in_playlist] returns an entry for every object under
    [playlist_name/] that ends in ".mp3", and for those only, named by
    the last segment of the key. *)
Theorem small_folder_fully_listed `{Platform} (playlist_name : str) (w : World) :
  store_works w ->
  lists_the_keys ->
  (length (List.filter (fun k => startswith k (playlist_name ++ py "/"))
             (backend_order (bucket w))) <= MaxKeys)%nat ->
  exists songs,
    list_songs_in_playlist playlist_name w = (Ok songs, b2_session w)
    /\ forall s, s ∈ songs <->
         is_Some (bucket w !! song_key s)
         /\ in_folder playlist_name (song_key s) = true
         /\ last (split SLASH (song_key s)) = Some (song_name s).
Proof. apply list_songs_small_folder. Qed.

Lemma small_folder_fully_listed_witness :
  let w := set_bucket {[ py "Mix/a.mp3" := []; py "Mix/cover.jpg" := [];
                         py "Other/b.mp3" := [] ]} Demo.empty_world in
  exists songs,
    (list_songs_in_playlist (H := Demo.platform) (py "Mix") w).1 = Ok songs
    /\ {| song_key := py "Mix/a.mp3"; song_name := py "a.mp3" |} ∈ songs.
Proof.
  intros w.
  destruct (small_folder_fully_listed (H := Demo.platform) (py "Mix") w)
    as (songs & Hrun & Hsongs).
  - store_works_here.
  - exact demo_lists_the_keys.
  - compute_done.
  - exists songs. split; [by rewrite Hrun |]. apply Hsongs. clear Hrun Hsongs.
    vm_compute. split; [eexists; reflexivity | split; reflexivity].
Defined.

Lemma basename_id (b : str) : SLASH ∉ b -> basename b = b.
Proof.
  destruct b as [| c b]; [done |]. intros [Hc Hb]%not_elem_of_cons.
  cbn [basename]. char_eq c SLASH; [done |]. cbn [orb].
  destruct (existsb (N.eqb SLASH) b) eqn:Hex; [| done].
  apply existsb_exists in Hex as (x & Hx & Heq%N.eqb_eq).
  rewrite <- Heq in Hx. by apply list_elem_of_In in Hx.
Qed.

Lemma basename_after_slash (a b : str) :
  SLASH ∉ b -> basename (a ++ SLASH :: b) = b.
Proof.
  intros Hb. induction a as [| c a IH]; cbn [app basename].
  - rewrite N.eqb_refl. cbn [orb].
    destruct b as [| x b]; [done |]. by apply basename_id.
  - assert (existsb (N.eqb SLASH) (a ++ SLASH :: b) = true) as ->.
    { apply existsb_exists. exists SLASH. split; [| apply N.eqb_refl].
      apply in_or_app. right. by left. }
    by rewrite orb_true_r.
Qed.

Lemma basename_no_slash (p : str) : SLASH ∉ basename p.
Proof.
  induction p as [| c p IH]; cbn [basename]; [apply not_elem_of_nil |].
  char_eq c SLASH; cbn [orb]; [exact IH |].
  destruct (existsb (N.eqb SLASH) p) eqn:Hex; [exact IH |].
  apply not_elem_of_cons. split; [done | by apply existsb_not_elem].
Qed.

(** X15. On a store that works, an uploaded song shows up in the listing
    of its folder with the name of the local file: when the file name
    ends in ".mp3", the service lists the keys of the bucket and the
    folder holds at most [MaxKeys] keys, [list_songs_in_playlist] after
    [upload_song_to_b2] returns the entry of the new key. *)
Theorem uploaded_song_is_listed `{Platform} (file_path playlist_name : str)
  (data : bytes) (w : World) :
  let w' := (upload_song_to_b2 file_path playlist_name w).2 in
  store_works w ->
  files (fs w) !! file_path = Some data ->
  endswith (basename file_path) (py ".mp3") = true ->
  lists_the_keys ->
  (length (List.filter (fun k => startswith k (playlist_name ++ py "/"))
             (backend_order (bucket w'))) <= MaxKeys)%nat ->
  exists songs,
    list_songs_in_playlist playlist_name w' = (Ok songs, b2_session w')
    /\ {| song_key := playlist_name ++ py "/" ++ basename file_path;
          song_name := basename file_path |} ∈ songs.
Proof.
  intros w' Hw Hfile Hmp3 Hkeys Hsmall.
  assert (w' = set_bucket
                 (<[playlist_name ++ py "/" ++ basename file_path := data]> (bucket w))
                 (b2_session w)) as Hw'.
  { subst w'. by rewrite (upload_song_to_b2_ok file_path playlist_name data w Hw Hfile). }
  assert (store_works w') as Hworks.
  { rewrite Hw'. by apply (store_works_frame (b2_session w)), store_works_b2_session. }
  destruct (list_songs_small_folder playlist_name w' Hworks Hkeys Hsmall)
    as (songs & Hrun & Hsongs).
  exists songs. split; [exact Hrun |]. apply Hsongs. cbn [song_key song_name].
  assert (bucket w' = <[playlist_name ++ py "/" ++ basename file_path := data]> (bucket w))
    as Hbucket by by rewrite Hw'.
  split; [| split].
  - rewrite Hbucket, lookup_insert_eq. by eexists.
  - unfold in_folder. apply andb_true_iff. split.
    + apply startswith_spec. eexists. by rewrite <- app_assoc.
    + apply endswith_spec in Hmp3 as [stem Hstem]. apply endswith_spec.
      exists (playlist_name ++ py "/" ++ stem). by rewrite Hstem, <- !app_assoc.
  - rewrite basename_last. f_equal.
    change (playlist_name ++ py "/" ++ basename file_path)
      with (playlist_name ++ SLASH :: basename file_path).
    apply basename_after_slash, basename_no_slash.
Qed.

Lemma uploaded_song_is_listed_witness :
  let w := set_fs {| files := {[ py "/tmp/t/a.mp3" := py "new" ]}; dirs := ∅ |}
             Demo.empty_world in
  let w' := (upload_song_to_b2 (py "/tmp/t/a.mp3") (py "Mix") w).2 in
  exists songs,
    (list_songs_in_playlist (H := Demo.platform) (py "Mix") w').1 = Ok songs
    /\ {| song_key := py "Mix/a.mp3"; song_name := py "a.mp3" |} ∈ songs.
Proof.
  intros w w'.
  destruct (uploaded_song_is_listed (H := Demo.platform) (py "/tmp/t/a.mp3") (py "Mix")
              (py "new") w) as (songs & Hrun & Hsong).
  - store_works_here.
  - reflexivity.
  - reflexivity.
  - exact demo_lists_the_keys.
  - compute_done.
  - exists songs. split; [| exact Hsong]. subst w'. by rewrite Hrun.
Defined.

(** What [get_song_data] returns on a store that works. *)
Lemma get_song_data_run (key : str) (w : World) :
  store_works w ->
  get_song_data key w
  = (match bucket w !! key with
     | Some data => Ok data
     | None => Raise (ClientError (py "NoSuchKey"))
     end, b2_session w).
Proof.
  intros Hw. unfold get_song_data.
  destruct (b2_open_ok (fun b2 bucket => get_object b2 bucket key) w Hw)
    as (b2 & -> & Hw1 & Hsession).
  set (w1 := looked_up _ _) in *.
  unfold get_object, b2_request, io_bind.
  rewrite send_ok by apply Hw1. rewrite Hsession.
  destruct (b2_session_frame w) as (_ & _ & _ & _ & _ & _ & _ & -> & _).
  by destruct (bucket w !! key).
Qed.

(** X16. On a store that works, every song that [list_songs_in_playlist]
    returns can be read: when the service lists keys of the bucket only,
    [get_song_data] on the key of a listed song returns the bytes stored
    under it. *)
Theorem listed_songs_are_readable `{Platform} (playlist_name : str) (w : World)
  (songs : list song) (s : song) :
  store_works w ->
  lists_the_keys ->
  (list_songs_in_playlist playlist_name w).1 = Ok songs -> s ∈ songs ->
  exists data, bucket w !! song_key s = Some data
               /\ (get_song_data (song_key s) w).1 = Ok data.
Proof.
  intros Hw Hkeys Hrun Hs.
  rewrite (list_songs_in_playlist_run playlist_name w Hw) in Hrun.
  injection Hrun as <-. apply list_elem_of_fmap in Hs as (key & -> & Hin).
  apply list_elem_of_In, filter_In in Hin as [Hin _].
  apply list_elem_of_In, elem_of_take in Hin as (j & Hin & _).
  apply list_elem_of_lookup_2, list_elem_of_In, filter_In in Hin as [Hin _].
  apply list_elem_of_In, Hkeys in Hin as [data Hdata].
  exists data. split; [done |]. rewrite (get_song_data_run _ w Hw).
  cbn [song_of song_key fst]. by rewrite Hdata.
Qed.

Lemma listed_songs_are_readable_witness :
  let w := set_bucket {[ py "Mix/a.mp3" := py "bytes" ]} Demo.empty_world in
  exists data, bucket w !! py "Mix/a.mp3" = Some data
               /\ (get_song_data (py "Mix/a.mp3") w).1 = Ok data.
Proof.
  intros w.
  apply (listed_songs_are_readable (H := Demo.platform) (py "Mix") w
           [ {| song_key := py "Mix/a.mp3"; song_name := py "a.mp3" |} ]
           {| song_key := py "Mix/a.mp3"; song_name := py "a.mp3" |}).
  - store_works_here.
  - exact demo_lists_the_keys.
  - by rewrite list_songs_in_playlist_run by store_works_here.
  - by left.
Defined.

(** ** The bucket: folders *)

Lemma through_slash_spec (key p : str) :
  through_slash key = Some p ->
  exists seg rest, (SLASH ∉ seg) /\ p = seg ++ [SLASH] /\ key = seg ++ SLASH :: rest.
Proof.
  revert p. induction key as [| c key IH]; intros p; cbn [through_slash]; [done |].
  char_eq c SLASH.
  - intros [= <-]. exists [], key. split; [apply not_elem_of_nil | done].
  - destruct (through_slash key) as [p' |]; [| done]. intros [= <-].
    destruct (IH p' eq_refl) as (seg & rest & Hseg & -> & ->).
    exists (c :: seg), rest. split; [| done]. by apply not_elem_of_cons.
Qed.

Lemma through_slash_app (seg rest : str) :
  SLASH ∉ seg -> through_slash (seg ++ SLASH :: rest) = Some (seg ++ [SLASH]).
Proof.
  induction seg as [| c seg IH]; intros Hseg; cbn [app through_slash].
  - by rewrite N.eqb_refl.
  - apply not_elem_of_cons in Hseg as [Hc Hseg].
    char_eq c SLASH; [done |]. by rewrite IH.
Qed.

Lemma lstrip_char_id (c : char) (s : str) : c ∉ s -> lstrip_char c s = s.
Proof.
  destruct s as [| x s]; [done |]. intros [Hx _]%not_elem_of_cons.
  cbn. char_eq x c; [done | done].
Qed.

Lemma rstrip_char_folder (seg : str) :
  SLASH ∉ seg -> rstrip_char SLASH (seg ++ [SLASH]) = seg.
Proof.
  intros Hseg. unfold rstrip_char. rewrite rev_app_distr. cbn [rev app lstrip_char].
  rewrite N.eqb_refl, lstrip_char_id; [apply rev_involutive |].
  intros Hin. apply Hseg. apply list_elem_of_In. apply list_elem_of_In in Hin.
  by apply in_rev.
Qed.

Lemma list_prefixes_page_names `{Platform} (w : World) :
  map (fun prefix => rstrip_char SLASH (Prefix prefix))
    (match CommonPrefixes (list_prefixes_page w) with
     | Some l => l
     | None => []
     end)
  = map (rstrip_char SLASH)
      (omap prefix_of
         (take MaxKeys (remove_dups (map rolled_up (backend_order (bucket w)))))).
Proof.
  unfold list_prefixes_page. cbn [CommonPrefixes].
  fold rolled_up. fold prefix_of.
  destruct (omap prefix_of _) as [| p ps]; [done |].
  by rewrite <- list_fmap_compose.
Qed.

(** The folders [list_playlists] returns on a store that works. *)
Lemma list_playlists_run `{Platform} (w : World) :
  store_works w ->
  list_playlists w
  = (Ok (map (rstrip_char SLASH)
           (omap prefix_of
              (take MaxKeys (remove_dups (map rolled_up (backend_order (bucket w))))))),
     b2_session w).
Proof.
  intros Hw. unfold list_playlists.
  destruct (b2_open_ok
              (fun b2 bucket =>
                 io_bind (list_objects_v2_delimited b2 bucket)
                   (fun response =>
                      io_ret (map (fun prefix => rstrip_char SLASH (Prefix prefix))
                                match CommonPrefixes response with
                                | Some l => l
                                | None => []
                                end)))
              w Hw) as (b2 & -> & Hw1 & Hsession).
  set (w1 := looked_up _ _) in *.
  unfold io_bind, list_objects_v2_delimited, b2_request, io_bind, ask, io_ret.
  rewrite send_ok by apply Hw1. rewrite Hsession, list_prefixes_page_names.
  by destruct (b2_session_frame w) as (_ & _ & _ & _ & _ & _ & _ & -> & _).
Qed.

(** Whatever the store does, [list_playlists] writes nothing, and what it
    returns is taken from the listing. *)
Lemma list_playlists_cases `{Platform} (w : World) :
  store_frame w (list_playlists w).2
  /\ forall playlists,
       (list_playlists w).1 = Ok playlists ->
       playlists
       = map (rstrip_char SLASH)
           (omap prefix_of
              (take MaxKeys (remove_dups (map rolled_up (backend_order (bucket w)))))).
Proof.
  destruct (list_playlists w) as [r wf] eqn:Hrun.
  cbn [fst snd]. revert Hrun.
  unfold list_playlists, io_bind at 1.
  pose proof (get_b2_client_frame w) as Hclient.
  destruct (get_b2_client w) as [[b2 | e] w1]; cbn [snd] in Hclient;
    [| by intros [= <- <-]].
  unfold io_bind at 1. rewrite get_secret_first_usable.
  pose proof (looked_up_frame (py "B2_BUCKET") w1) as Hlookup.
  set (w2 := looked_up (py "B2_BUCKET") w1) in *.
  assert (store_frame w w2) as Hw2 by by eapply store_frame_trans.
  destruct (first_usable (py "B2_BUCKET") w1) as [name |];
    [| by intros [= <- <-]].
  unfold io_bind, list_objects_v2_delimited, b2_request, io_bind, ask, io_ret.
  pose proof (send_frame b2 name w2) as Hsend.
  destruct (send b2 name w2) as [[[] | e] w3]; cbn [snd] in Hsend;
    [| intros [= <- <-]; split; [by eapply store_frame_trans | done]].
  assert (store_frame w w3) as Hw3 by by eapply store_frame_trans.
  rewrite list_prefixes_page_names. intros [= <- <-].
  split; [done |]. intros playlists [= <-].
  by destruct Hw3 as (_ & _ & _ & _ & _ & _ & _ & -> & _).
Qed.

Lemma remove_dups_length {A : Type} `{EqDecision A} (l : list A) :
  (length (remove_dups l) <= length l)%nat.
Proof.
  induction l as [| a l IH]; cbn; [done |].
  destruct (decide_rel elem_of a l); cbn; lia.
Qed.

Lemma omap_length {A B : Type} (f : A -> option B) (l : list A) :
  (length (omap f l) <= length l)%nat.
Proof. induction l as [| a l IH]; cbn; [done |]. destruct (f a); cbn; lia. Qed.

(** X17. [list_playlists] writes nothing: however the call ends, the
    bucket, the local files and the page are as before. On a store that
    works it returns a list. And a list it returns holds at most
    [MaxKeys] folder names, none of which holds a slash, and every name
    is the first segment of a key that the service lists. *)
Theorem list_playlists_sound `{Platform} (w : World) :
  store_frame w (list_playlists w).2
  /\ (store_works w -> exists playlists, (list_playlists w).1 = Ok playlists)
  /\ forall playlists,
       (list_playlists w).1 = Ok playlists ->
       (length playlists <= MaxKeys)%nat
       /\ Forall (fun name =>
                    (SLASH ∉ name)
                    /\ exists rest, name ++ SLASH :: rest ∈ backend_order (bucket w))
            playlists.
Proof.
  destruct (list_playlists_cases w) as [Hframe Hnames].
  split; [exact Hframe |]. split.
  { intros Hw. rewrite (list_playlists_run w Hw). by eexists. }
  intros playlists Hrun. rewrite (Hnames playlists Hrun). split.
  - rewrite length_map. etransitivity; [apply omap_length |].
    rewrite length_take. lia.
  - apply Forall_forall. intros name (p & -> & Hp)%list_elem_of_fmap.
    apply list_elem_of_omap in Hp as (e & He & Hpe).
    apply elem_of_take in He as (j & He & _).
    apply list_elem_of_lookup_2, elem_of_remove_dups, list_elem_of_fmap in He
      as (key & -> & Hkey).
    unfold rolled_up in Hpe. destruct (through_slash key) as [p' |] eqn:Hslash; [| done].
    injection Hpe as ->.
    apply through_slash_spec in Hslash as (seg & rest & Hseg & -> & ->).
    rewrite rstrip_char_folder by done. split; [done | by exists rest].
Qed.

(** X18. On a store that works, the folder of an uploaded song shows up
    among the playlists: when the folder name holds no slash, the service
    lists the keys of the bucket and the bucket holds at most [MaxKeys]
    keys, [list_playlists] after [upload_song_to_b2] returns the folder. *)
Theorem uploaded_folder_is_listed `{Platform} (file_path playlist_name : str)
  (data : bytes) (w : World) :
  let w' := (upload_song_to_b2 file_path playlist_name w).2 in
  store_works w ->
  files (fs w) !! file_path = Some data ->
  SLASH ∉ playlist_name ->
  lists_the_keys ->
  (length (backend_order (bucket w')) <= MaxKeys)%nat ->
  exists playlists,
    list_playlists w' = (Ok playlists, b2_session w') /\ playlist_name ∈ playlists.
Proof.
  intros w' Hw Hfile Hname Hkeys Hsmall.
  assert (w' = set_bucket
                 (<[playlist_name ++ py "/" ++ basename file_path := data]> (bucket w))
                 (b2_session w)) as Hw'.
  { subst w'. by rewrite (upload_song_to_b2_ok file_path playlist_name data w Hw Hfile). }
  assert (store_works w') as Hworks.
  { rewrite Hw'. by apply (store_works_frame (b2_session w)), store_works_b2_session. }
  assert (bucket w' = <[playlist_name ++ py "/" ++ basename file_path := data]> (bucket w))
    as Hbucket by by rewrite Hw'.
  eexists. split; [by apply list_playlists_run |].
  apply list_elem_of_fmap. exists (playlist_name ++ [SLASH]).
  split; [by rewrite rstrip_char_folder |].
  apply list_elem_of_omap. exists (inr (playlist_name ++ [SLASH])). split; [| done].
  rewrite take_ge.
  - apply elem_of_remove_dups, list_elem_of_fmap.
    exists (playlist_name ++ SLASH :: basename file_path). split.
    + unfold rolled_up. by rewrite through_slash_app.
    + apply Hkeys. rewrite Hbucket.
      change (playlist_name ++ py "/" ++ basename file_path)
        with (playlist_name ++ SLASH :: basename file_path).
      rewrite lookup_insert_eq. by eexists.
  - etransitivity; [apply remove_dups_length |]. by rewrite length_map.
Qed.

Lemma uploaded_folder_is_listed_witness :
  let w := set_fs {| files := {[ py "/tmp/t/a.mp3" := py "new" ]}; dirs := ∅ |}
             Demo.empty_world in
  let w' := (upload_song_to_b2 (py "/tmp/t/a.mp3") (py "Mix") w).2 in
  exists playlists,
    (list_playlists (H := Demo.platform) w').1 = Ok playlists
    /\ py "Mix" ∈ playlists.
Proof.
  intros w w'.
  destruct (uploaded_folder_is_listed (H := Demo.platform) (py "/tmp/t/a.mp3") (py "Mix")
              (py "new") w) as (playlists & Hrun & Hfolder).
  - store_works_here.
  - reflexivity.
  - compute_done.
  - exact demo_lists_the_keys.
  - compute_done.
  - exists playlists. split; [| exact Hfolder]. subst w'. by rewrite Hrun.
Defined.

(** ** The library tab: display names *)

Lemma replace_from_skip (old new pre rest : str) :
  replace_from old new (length pre) (pre ++ rest) = replace_from old new 0 rest.
Proof.
  induction pre as [| c pre IH]; [done |]. exact IH.
Qed.

Lemma replace_from_mp3 (rest : str) :
  replace_from (py ".mp3") [] 0 (py ".mp3" ++ rest)
  = replace_from (py ".mp3") [] 0 rest.
Proof.
  change (py ".mp3" ++ rest) with (46 :: py "mp3" ++ rest).
  cbn [replace_from]. change (startswith _ (py ".mp3")) with true. cbn [app].
  exact (replace_from_skip (py ".mp3") [] (py "mp3") rest).
Qed.

Lemma replace_from_dot_free (a rest : str) :
  DOT ∉ a ->
  replace_from (py ".mp3") [] 0 (a ++ rest)
  = a ++ replace_from (py ".mp3") [] 0 rest.
Proof.
  induction a as [| c a IH]; intros Ha; [done |].
  apply not_elem_of_cons in Ha as [Hc Ha]. cbn [app replace_from].
  assert (startswith (c :: a ++ rest) (py ".mp3") = false) as ->.
  { change (py ".mp3") with (DOT :: py "mp3"). cbn [startswith].
    char_eq c DOT; [done | done]. }
  by rewrite IH.
Qed.

(** X19. The names shown for the songs: a file name [stem.mp3] whose
    stem holds no dot is shown as the stem; and ".mp3" is removed
    wherever it stands, so [a.mp3b.mp3] is shown as [ab]. *)
Theorem song_names_without_mp3 (songs : list song) (stems : list str) (a b : str) :
  Forall2 (fun s stem => (DOT ∉ stem) /\ song_name s = stem ++ py ".mp3") songs stems ->
  DOT ∉ a -> DOT ∉ b ->
  song_names songs = stems
  /\ replace (py ".mp3") [] (a ++ py ".mp3" ++ b ++ py ".mp3") = a ++ b.
Proof.
  intros Hsongs Ha Hb. split.
  - induction Hsongs as [| s stem songs stems [Hstem Hname] _ IH]; [done |].
    cbn [song_names map]. fold (song_names songs). rewrite IH, Hname. f_equal.
    change (replace (py ".mp3") [] (stem ++ py ".mp3"))
      with (replace_from (py ".mp3") [] 0 (stem ++ py ".mp3" ++ [])).
    rewrite replace_from_dot_free, replace_from_mp3 by done. cbn. by rewrite app_nil_r.
  - change (replace (py ".mp3") [] (a ++ py ".mp3" ++ b ++ py ".mp3"))
      with (replace_from (py ".mp3") [] 0 (a ++ py ".mp3" ++ b ++ py ".mp3" ++ [])).
    rewrite replace_from_dot_free, replace_from_mp3 by done.
    rewrite replace_from_dot_free, replace_from_mp3 by done. cbn. by rewrite app_nil_r.
Qed.

Lemma song_names_without_mp3_witness :
  song_names [ {| song_key := py "Mix/One - A.mp3"; song_name := py "One - A.mp3" |} ]
  = [py "One - A"]
  /\ replace (py ".mp3") [] (py "live" ++ py ".mp3" ++ py " cut" ++ py ".mp3")
     = py "live" ++ py " cut".
Proof.
  apply (song_names_without_mp3
           [ {| song_key := py "Mix/One - A.mp3"; song_name := py "One - A.mp3" |} ]
           [py "One - A"] (py "live") (py " cut")).
  - constructor; [| constructor]. split; [compute_done | reflexivity].
  - compute_done.
  - compute_done.
Defined.

(** ** Resolution: malformed tracks *)

Lemma all_str_raises (parts : list json) :
  Exists (fun v => ~ is_str v) parts -> all_str parts = Raise TypeError.
Proof.
  induction parts as [| v parts IH]; intros Hex; [by apply Exists_nil in Hex |].
  apply Exists_cons in Hex as [Hv | Hex].
  - destruct v; try done. exfalso. apply Hv. by eexists.
  - cbn [all_str]. destruct v; try done. by rewrite IH.
Qed.

Lemma artist_name_values (artists values : list json) :
  Forall2 artist_name_value artists values ->
  map_result (fun a => dict_get a (py "name") (JStr [])) artists = Ok values.
Proof.
  induction 1 as [| a v artists values (fields & -> & ->) _ IH]; [done |].
  cbn [map_result dict_get mbind result_bind]. by rewrite IH.
Qed.

(** X20. A track of the page is not skipped for a malformed artist: when
    the track has a name that is not empty and one of its artist objects
    has a name that is not a string (a [null], say), [add_item] raises
    [TypeError], which ends the resolution. *)
Theorem malformed_artist_raises `{Platform} (fields tfields : list (str * json))
  (c : char) (name : str) (artists values : list json) (acc : list str) :
  assoc (py "track") fields = Some (JObj tfields) ->
  assoc (py "name") tfields = Some (JStr (c :: name)) ->
  assoc (py "artists") tfields = Some (JArr artists) ->
  Forall2 artist_name_value artists values ->
  Exists (fun v => ~ is_str v) values ->
  add_item (JObj fields) acc = Raise TypeError.
Proof.
  intros Htrack Hname Hartists Hvalues Hbad. unfold add_item.
  rewrite (dict_get_some _ _ _ _ Htrack). cbn [mbind result_bind].
  assert (truthy (JObj tfields) = true) as -> by by destruct tfields.
  rewrite (dict_get_some _ _ _ _ Hname), (dict_get_some _ _ _ _ Hartists).
  cbn [mbind result_bind py_iter]. rewrite (artist_name_values _ _ Hvalues).
  destruct values as [| v values]; [by apply Exists_nil in Hbad |].
  cbn [mbind result_bind truthy andb].
  unfold join_values. by rewrite (all_str_raises _ Hbad).
Qed.

Lemma malformed_artist_raises_witness :
  add_item (H := Demo.platform)
    (JObj [(py "track",
            JObj [(py "name", JStr (py "One"));
                  (py "artists", JArr [JObj [(py "name", JNull)]])])]) []
  = Raise TypeError.
Proof.
  apply (malformed_artist_raises (H := Demo.platform) _
           [(py "name", JStr (py "One"));
            (py "artists", JArr [JObj [(py "name", JNull)]])]
           79 (py "ne") [JObj [(py "name", JNull)]] [JNull]).
  - reflexivity.
  - reflexivity.
  - reflexivity.
  - constructor; [| constructor]. by eexists.
  - constructor. by intros [s Hs].
Defined.

(** ** The download tab: failures *)

(** X21. Whatever makes the resolution raise (the token exchange, the
    URL, a page, its JSON), a click that passed the checks of the form
    ends with the spinner and one error message for that exception; the
    bucket and the local files are as before and the downloader was not
    called. *)
Theorem any_resolution_failure_aborts `{Platform} (playlist_url folder_name : str)
  (quality : Z) (e : exn) (w : World) :
  strip folder_name <> [] ->
  contains playlist_url (py "spotify.com/playlist") = true ->
  (get_playlist_tracks playlist_url (show spinner_spotify w)).1 = Raise e ->
  let w' := on_download playlist_url folder_name quality w in
  screen w' = screen w ++ [spinner_spotify; error_exception e]
  /\ bucket w' = bucket w /\ fs w' = fs w /\ ydl_calls w' = ydl_calls w.
Proof.
  intros Hfolder Hurl Hraise w'.
  pose proof (get_playlist_tracks_frame playlist_url (show spinner_spotify w)) as Hframe.
  destruct (get_playlist_tracks playlist_url (show spinner_spotify w))
    as [r w1] eqn:Hrun. cbn [fst snd] in *. subst r.
  assert (w' = show (error_exception e) w1) as ->.
  { subst w'. unfold on_download.
    destruct playlist_url as [| c url]; [discriminate Hurl |].
    destruct (strip folder_name) as [| c' name]; [done |].
    rewrite Hurl. cbn [negb].
    unfold sync, io_bind at 1, effect at 1. unfold io_bind at 1. by rewrite Hrun. }
  destruct Hframe as (_ & _ & _ & Hfs & Hcalls & _ & Hbucket & _ & Hscreen & _).
  cbn. rewrite Hscreen, Hfs, Hcalls, Hbucket. cbn. by rewrite <- app_assoc.
Qed.

Lemma any_resolution_failure_aborts_witness :
  let w := set_network [Demo.ok (JArr [])] Demo.empty_world in
  let w' := on_download (H := Demo.platform) Demo.playlist_url (py "Mix") 192 w in
  screen w' = [spinner_spotify; error_exception TypeError] /\ bucket w' = ∅.
Proof.
  intros w w'.
  destruct (any_resolution_failure_aborts (H := Demo.platform) Demo.playlist_url
              (py "Mix") 192 TypeError w) as (Hscreen & Hbucket & _).
  - discriminate.
  - reflexivity.
  - reflexivity.
  - split; [exact Hscreen | exact Hbucket].
Defined.

(** X22. A download that brings nothing uploads nothing: the temporary
    directory of a turn starts empty, so when the downloader leaves the
    file system as it finds it, the turn ends without an exception and
    the bucket is as before. No file of an earlier track can be taken
    for this one. *)
Theorem failed_download_uploads_nothing `{Platform} (safe_name : str) (quality : Z)
  (n i : nat) (song : str) (w : World) :
  let tmp_dir := mkdtemp (fs w) in
  ydl_download (ydl_opts tmp_dir quality) [py "ytsearch1:" ++ song]
    (make_dir tmp_dir (fs w)) = make_dir tmp_dir (fs w) ->
  (download_one safe_name quality n i song w).1 = Ok tt
  /\ bucket (download_one safe_name quality n i song w).2 = bucket w.
Proof.
  intros tmp_dir Hnothing.
  assert (download_song song tmp_dir quality (entering n i song w)
          = (Ok None,
             set_fs (make_dir tmp_dir (fs w))
               (log_ydl (ydl_opts tmp_dir quality, [py "ytsearch1:" ++ song])
                  (entering n i song w)))) as Hrun.
  { rewrite (download_song_run song tmp_dir quality [] (entering n i song w)).
    - cbn [first_mp3 fst snd]. f_equal. f_equal. exact Hnothing.
    - cbn [fst snd fs set_fs entering]. fold tmp_dir. rewrite Hnothing.
      cbn [make_dir dirs]. apply lookup_insert_eq. }
  set (wd := set_fs (make_dir tmp_dir (fs w))
               (log_ydl (ydl_opts tmp_dir quality, [py "ytsearch1:" ++ song])
                  (entering n i song w))) in *.
  assert (download_one safe_name quality n i song w
          = (Ok tt, show (progress (fraction i n))
                      (set_fs (rmtree tmp_dir (fs wd)) wd))) as ->; [| by split].
  unfold download_one, io_bind at 1, effect at 1. unfold io_bind at 1.
  unfold TemporaryDirectory.
  change (set_fs (make_dir _ _) (show _ w)) with (entering n i song w).
  change (fs (show (status_text (i + 1) n song) w)) with (fs w).
  fold tmp_dir. unfold io_bind at 1. by rewrite Hrun.
Qed.

Lemma failed_download_uploads_nothing_witness :
  (download_one (H := Demo.platform) (py "Mix") 192 1 0 (py "Missing - C")
     Demo.empty_world).1 = Ok tt
  /\ bucket (download_one (H := Demo.platform) (py "Mix") 192 1 0 (py "Missing - C")
               Demo.empty_world).2 = ∅.
Proof.
  apply (failed_download_uploads_nothing (H := Demo.platform) (py "Mix") 192 1 0
           (py "Missing - C") Demo.empty_world).
  reflexivity.
Defined.

(** ** The bucket: a store that is not configured *)

Lemma unset_looked_up (key key' : str) (w : World) :
  unset key w -> unset key (looked_up key' w).
Proof.
  intros Hw. unfold looked_up, load_secrets.
  destruct (env_match key' w); [done |].
  destruct (st_secrets w) as [secrets |] eqn:Hfile; [| done].
  destruct (secrets_parsed w); [done |].
  destruct Hw as (Henv & Hsecrets & Hetc). rewrite Hfile in Hsecrets.
  unfold unset. cbn. rewrite Hfile. split; [| done].
  apply lookup_union_None. by split.
Qed.

Lemma unset_lookups (key : str) (keys : list str) (w : World) :
  unset key w -> unset key (lookups keys w).
Proof.
  revert w. induction keys as [| key' keys IH]; intros w Hw; [done |].
  apply IH. by apply unset_looked_up.
Qed.

Lemma first_usable_unset (key : str) (w : World) :
  unset key w -> first_usable key w = None.
Proof.
  intros (Henv & Hsecrets & Hetc). unfold first_usable, env_match.
  by rewrite Henv, Hsecrets, Hetc.
Qed.

(** The first two lines of a store function when B2_BUCKET is in no
    source. *)
Lemma b2_open_unset {A : Type} (k : b2_client -> option str -> io A) (w : World) :
  unset (py "B2_BUCKET") w ->
  Forall (fun fault => fault = None) (boto3_faults w) ->
  exists b2 w1,
    io_bind get_b2_client (fun b2 => io_bind (get_secret (py "B2_BUCKET") None) (k b2)) w
    = k b2 None w1
    /\ bucket w1 = bucket w.
Proof.
  intros Hunset Hnone.
  destruct (get_b2_client_ok w Hnone) as [b2 Hclient].
  set (w0 := answered (lookups [py "B2_ENDPOINT"; py "B2_KEY_ID"; py "B2_APP_KEY"] w))
    in *.
  assert (first_usable (py "B2_BUCKET") w0 = None) as Hname.
  { apply first_usable_unset.
    pose proof (unset_lookups (py "B2_BUCKET")
                  [py "B2_ENDPOINT"; py "B2_KEY_ID"; py "B2_APP_KEY"] w Hunset) as Hw0.
    exact Hw0. }
  exists b2, (looked_up (py "B2_BUCKET") w0). split.
  - unfold io_bind at 1. rewrite Hclient. unfold io_bind.
    by rewrite get_secret_none, Hname.
  - subst w0.
    destruct (lookups_cases [py "B2_ENDPOINT"; py "B2_KEY_ID"; py "B2_APP_KEY"] w)
      as (env & parsed & ->).
    by destruct (looked_up_cases (py "B2_BUCKET")
                   (answered (set_secrets_parsed parsed (set_environ env w))))
      as (env' & parsed' & ->).
Qed.

(** X23. With B2_BUCKET in no source, and boto3 raising on no call, every
    function of the store raises [TypeError]: the client is made, the
    bucket name is [None], and the request fails on it before anything
    is sent. Nothing is written. *)
Theorem unconfigured_store_raises `{Platform} (playlist_name key file_path : str)
  (w : World) :
  unset (py "B2_BUCKET") w ->
  Forall (fun fault => fault = None) (boto3_faults w) ->
  (list_playlists w).1 = Raise TypeError
  /\ (list_songs_in_playlist playlist_name w).1 = Raise TypeError
  /\ (get_song_data key w).1 = Raise TypeError
  /\ (upload_song_to_b2 file_path playlist_name w).1 = Raise TypeError
  /\ bucket (upload_song_to_b2 file_path playlist_name w).2 = bucket w.
Proof.
  intros Hunset Hnone. repeat split.
  - unfold list_playlists.
    by destruct (b2_open_unset
                   (fun b2 bucket =>
                      io_bind (list_objects_v2_delimited b2 bucket)
                        (fun response =>
                           io_ret (map (fun prefix => rstrip_char SLASH (Prefix prefix))
                                     match CommonPrefixes response with
                                     | Some l => l
                                     | None => []
                                     end)))
                   w Hunset Hnone) as (b2 & w1 & -> & _).
  - unfold list_songs_in_playlist.
    by destruct (b2_open_unset
                   (fun b2 bucket =>
                      io_bind (list_objects_v2 b2 bucket (playlist_name ++ py "/"))
                        (fun response =>
                           lift (songs_of match Contents response with
                                          | Some l => l
                                          | None => []
                                          end [])))
                   w Hunset Hnone) as (b2 & w1 & -> & _).
  - unfold get_song_data.
    by destruct (b2_open_unset (fun b2 bucket => get_object b2 bucket key)
                   w Hunset Hnone) as (b2 & w1 & -> & _).
  - unfold upload_song_to_b2.
    by destruct (b2_open_unset
                   (fun b2 bucket =>
                      io_bind (upload_file b2 file_path bucket
                                 (playlist_name ++ py "/" ++ basename file_path))
                        (fun _ => io_ret (playlist_name ++ py "/" ++ basename file_path)))
                   w Hunset Hnone) as (b2 & w1 & -> & _).
  - unfold upload_song_to_b2.
    by destruct (b2_open_unset
                   (fun b2 bucket =>
                      io_bind (upload_file b2 file_path bucket
                                 (playlist_name ++ py "/" ++ basename file_path))
                        (fun _ => io_ret (playlist_name ++ py "/" ++ basename file_path)))
                   w Hunset Hnone) as (b2 & w1 & -> & Hbucket).
Qed.

Lemma unconfigured_store_raises_witness :
  let w := set_environ ∅ Demo.empty_world in
  (list_playlists (H := Demo.platform) w).1 = Raise TypeError
  /\ (upload_song_to_b2 (py "/tmp/t/a.mp3") (py "Mix") w).1 = Raise TypeError.
Proof.
  intros w.
  destruct (unconfigured_store_raises (H := Demo.platform) (py "Mix") (py "Mix/a.mp3")
              (py "/tmp/t/a.mp3") w) as (Hlist & _ & _ & Hupload & _).
  - by vm_compute.
  - constructor.
  - by split.
Defined.
